(** * Array-tools: a shallow embedding of [arrays_util.h]

    The header implements a table of operations over a caller-owned buffer
    of C [int]s together with its length.  A buffer is modelled by the list
    of its cells, an index by a [Z] (the C [int] it is in the source), and a
    computation by an [option]: [None] stands for an access outside the
    buffer (undefined behaviour in C) or for a loop that ran out of its
    iteration budget. *)

From Stdlib Require Import ZArith List Lia.
From stdpp Require Import base option list sorting.
Import ListNotations.

Local Open Scope Z_scope.

(** ** Memory primitives *)

Module Mem.

(** [arr[i]] as an rvalue. *)
Definition load (arr : list Z) (i : Z) : option Z :=
  if decide (0 ≤ i) then arr !! Z.to_nat i else None.

(** [arr[i] = v]. *)
Definition store (arr : list Z) (i v : Z) : option (list Z) :=
  if decide (0 ≤ i < Z.of_nat (length arr))
  then Some (<[Z.to_nat i := v]> arr)
  else None.

(** The cell at index [k], for use in statements (0 outside the buffer). *)
Definition sel (arr : list Z) (k : Z) : Z := default 0 (load arr k).

(** [malloc] of [n] cells: the contents are whatever [junk] happens to be. *)
Definition malloc (junk : nat → Z) (n : Z) : list Z :=
  map junk (seq 0 (Z.to_nat n)).

(** Wrap-around of a mathematical integer into a signed 32-bit [int]. *)
Definition wrap32 (z : Z) : Z := (z + 2 ^ 31) mod 2 ^ 32 - 2 ^ 31.

(** Conversion to [unsigned long long]. *)
Definition wrap_u64 (z : Z) : Z := z mod 2 ^ 64.

(** The limits of a C [int]. *)
Definition INT_MAX : Z := 2147483647.
Definition INT_MIN : Z := -2147483648.

(** [a + b] on two [int]s: a sum outside the range of [int] is undefined
    behaviour. *)
Definition int_add (a b : Z) : option Z :=
  if decide (INT_MIN ≤ a + b ≤ INT_MAX) then Some (a + b) else None.

End Mem.
Import Mem.

(** ** The operations, in the order of the header *)

(** [rotate]: inner loop [for (j = 0; j < n - 1; ++j) arr[j] = arr[j + 1]]. *)
Fixpoint rotate_shift (fuel : nat) (arr : list Z) (n j : Z) : option (list Z) :=
  if j <? n - 1 then
    match fuel with
    | O => None
    | S fuel' =>
        x ← load arr (j + 1);
        arr' ← store arr j x;
        rotate_shift fuel' arr' n (j + 1)
    end
  else Some arr.

(** [rotate]: outer loop [for (i = 0; i < k; ++i)]. *)
Fixpoint rotate_loop (fuel : nat) (arr : list Z) (n k i : Z) : option (list Z) :=
  if i <? k then
    match fuel with
    | O => None
    | S fuel' =>
        temp ← load arr 0;
        arr1 ← rotate_shift (Z.to_nat n) arr n 0;
        arr2 ← store arr1 (n - 1) temp;
        rotate_loop fuel' arr2 n k (i + 1)
    end
  else Some arr.

(** [k = k % n] is C's truncating remainder; it is undefined for [n == 0]
    (division by zero) and for [INT_MIN % -1] (the quotient overflows). *)
Definition rotate (arr : list Z) (n k : Z) : option (list Z) :=
  if decide (n = 0 ∨ (k = INT_MIN ∧ n = -1)) then None
  else
    let k := Z.rem k n in
    rotate_loop (Z.to_nat k) arr n k 0.

(** [searchLIN]: [for (i = 0; i < n && index < 0; ++i)]. *)
Fixpoint searchLIN_loop (fuel : nat) (arr : list Z) (n sr i index : Z) : option Z :=
  if (i <? n) && (index <? 0) then
    match fuel with
    | O => None
    | S fuel' =>
        x ← load arr i;
        searchLIN_loop fuel' arr n sr (i + 1) (if x =? sr then i else index)
    end
  else Some index.

Definition searchLIN (arr : list Z) (n sr : Z) : option Z :=
  searchLIN_loop (Z.to_nat n) arr n sr 0 (-1).

(** [searchBIN]: [while (start < end && index != mid)].  The local [mid] is
    read by the loop test before it is ever assigned; [mid] below starts as
    the indeterminate value the caller of the model supplies.  The sum
    [start + end] is an [int] addition. *)
Fixpoint searchBIN_loop (fuel : nat) (arr : list Z) (sr start end_ mid index : Z)
  : option Z :=
  if (start <? end_) && negb (index =? mid) then
    match fuel with
    | O => None
    | S fuel' =>
        sum ← int_add start end_;
        let mid := Z.quot sum 2 in
        x ← load arr mid;
        if x =? sr then searchBIN_loop fuel' arr sr start end_ mid mid
        else if x <? sr then searchBIN_loop fuel' arr sr (mid + 1) end_ mid index
        else searchBIN_loop fuel' arr sr start (mid - 1) mid index
    end
  else Some index.

Definition searchBIN (mid0 : Z) (arr : list Z) (n sr : Z) : option Z :=
  searchBIN_loop (S (Z.to_nat n)) arr sr 0 n mid0 (-1).

(** [swapNumbers]. *)
Definition swapNumbers (arr : list Z) (index1 index2 : Z) : option (list Z) :=
  temp ← load arr index1;
  x ← load arr index2;
  arr1 ← store arr index1 x;
  store arr1 index2 temp.

(** [reverse]: [for (i = 0; i < n / 2; ++i)], the body being a swap of the
    cells [i] and [n - i - 1]. *)
Fixpoint reverse_loop (fuel : nat) (arr : list Z) (n i : Z) : option (list Z) :=
  if i <? Z.quot n 2 then
    match fuel with
    | O => None
    | S fuel' =>
        temp ← load arr i;
        x ← load arr (n - i - 1);
        arr1 ← store arr i x;
        arr2 ← store arr1 (n - i - 1) temp;
        reverse_loop fuel' arr2 n (i + 1)
    end
  else Some arr.

Definition reverse (arr : list Z) (n : Z) : option (list Z) :=
  reverse_loop (Z.to_nat n) arr n 0.

(** [MAX_count]: [maximum] is set once, before the loop. *)
Fixpoint MAX_count_loop (fuel : nat) (arr : list Z) (n maximum i count : Z)
  : option Z :=
  if i <? n then
    match fuel with
    | O => None
    | S fuel' =>
        x ← load arr i;
        if x >? maximum then MAX_count_loop fuel' arr n maximum (i + 1) 1
        else if x =? maximum then MAX_count_loop fuel' arr n maximum (i + 1) (count + 1)
        else MAX_count_loop fuel' arr n maximum (i + 1) count
    end
  else Some count.

Definition MAX_count (arr : list Z) (n : Z) : option Z :=
  maximum ← load arr 0;
  MAX_count_loop (Z.to_nat n) arr n maximum 1 0.

(** [struct record]: the two pivot positions a partition reports. *)
Module record.
Record t : Set := mk { left : Z; right : Z }.
End record.

(** [pivotPartition]: the scan [while (iterator <= rightPivot)]. *)
Fixpoint pivotPartition_loop (fuel : nat) (arr : list Z)
    (low high leftPivot rightPivot iterator : Z) : option (list Z * Z * Z) :=
  if iterator <=? rightPivot then
    match fuel with
    | O => None
    | S fuel' =>
        x ← load arr iterator;
        p ← load arr low;
        if x <? p then
          arr' ← swapNumbers arr iterator leftPivot;
          pivotPartition_loop fuel' arr' low high (leftPivot + 1) rightPivot (iterator + 1)
        else
          q ← load arr high;
          if x >? q then
            arr' ← swapNumbers arr iterator rightPivot;
            pivotPartition_loop fuel' arr' low high leftPivot (rightPivot - 1) iterator
          else
            pivotPartition_loop fuel' arr low high leftPivot rightPivot (iterator + 1)
    end
  else Some (arr, leftPivot, rightPivot).

Definition pivotPartition (arr : list Z) (low high : Z)
  : option (list Z * record.t) :=
  a ← load arr low;
  b ← load arr high;
  arr0 ← (if a >? b then swapNumbers arr low high else Some arr);
  '(arr1, leftPivot, rightPivot) ←
    pivotPartition_loop (Z.to_nat (high - low)) arr0 low high
                        (low + 1) (high - 1) (low + 1);
  let leftPivot := leftPivot - 1 in
  arr2 ← swapNumbers arr1 low leftPivot;
  let rightPivot := rightPivot + 1 in
  arr3 ← swapNumbers arr2 high rightPivot;
  Some (arr3, record.mk leftPivot rightPivot).

(** [dualPivotQuickSort]; [fuel] bounds the depth of the recursion. *)
Fixpoint dualPivotQuickSort_rec (fuel : nat) (arr : list Z) (low high : Z)
  : option (list Z) :=
  if low >=? high then Some arr
  else
    match fuel with
    | O => None
    | S fuel' =>
        '(arr1, Pivot) ← pivotPartition arr low high;
        arr2 ← dualPivotQuickSort_rec fuel' arr1 low (record.left Pivot - 1);
        arr3 ← dualPivotQuickSort_rec fuel' arr2 (record.left Pivot + 1)
                                      (record.right Pivot - 1);
        dualPivotQuickSort_rec fuel' arr3 (record.right Pivot + 1) high
    end.

Definition dualPivotQuickSort (arr : list Z) (low high : Z) : option (list Z) :=
  dualPivotQuickSort_rec (Z.to_nat (high - low)) arr low high.

(** [sumAllElements]: the loop accumulates into the [int] [sum] (an overflow
    is taken to wrap, as it does on the usual targets), and the function
    then returns the literal [0]. *)
Fixpoint sumAllElements_loop (fuel : nat) (arr : list Z) (n i sum : Z) : option Z :=
  if i <? n then
    match fuel with
    | O => None
    | S fuel' =>
        x ← load arr i;
        sumAllElements_loop fuel' arr n (i + 1) (wrap32 (sum + x))
    end
  else Some sum.

Definition sumAllElements (arr : list Z) (n : Z) : option Z :=
  _ ← sumAllElements_loop (Z.to_nat n) arr n 0 0;
  Some 0.

(** [checkForSort]: [for (i = 1; i < n; i++) if (arr[i] < arr[i-1]) return false]. *)
Fixpoint checkForSort_loop (fuel : nat) (arr : list Z) (n i : Z) : option bool :=
  if i <? n then
    match fuel with
    | O => None
    | S fuel' =>
        x ← load arr i;
        y ← load arr (i - 1);
        if x <? y then Some false
        else checkForSort_loop fuel' arr n (i + 1)
    end
  else Some true.

Definition checkForSort (arr : list Z) (n : Z) : option bool :=
  checkForSort_loop (Z.to_nat n) arr n 1.

(** [concatenateTwoArrays]: the lock-step loop [for (; i < size1 && i < size2; i++)]. *)
Fixpoint concat_lockstep (fuel : nat) (new_array arr1 : list Z) (size1 : Z)
    (arr2 : list Z) (size2 i : Z) : option (list Z * Z) :=
  if (i <? size1) && (i <? size2) then
    match fuel with
    | O => None
    | S fuel' =>
        x ← load arr1 i;
        new1 ← store new_array i x;
        y ← load arr2 i;
        k ← int_add size1 i;
        new2 ← store new1 k y;
        concat_lockstep fuel' new2 arr1 size1 arr2 size2 (i + 1)
    end
  else Some (new_array, i).

(** [while (i < size1) { new_array[i] = arr1[i]; i++; }] *)
Fixpoint concat_tail1 (fuel : nat) (new_array arr1 : list Z) (size1 i : Z)
  : option (list Z * Z) :=
  if i <? size1 then
    match fuel with
    | O => None
    | S fuel' =>
        x ← load arr1 i;
        new1 ← store new_array i x;
        concat_tail1 fuel' new1 arr1 size1 (i + 1)
    end
  else Some (new_array, i).

(** [while (i < size2) { new_array[size1+i] = arr2[i]; i++; }] *)
Fixpoint concat_tail2 (fuel : nat) (new_array : list Z) (size1 : Z)
    (arr2 : list Z) (size2 i : Z) : option (list Z) :=
  if i <? size2 then
    match fuel with
    | O => None
    | S fuel' =>
        y ← load arr2 i;
        k ← int_add size1 i;
        new1 ← store new_array k y;
        concat_tail2 fuel' new1 size1 arr2 size2 (i + 1)
    end
  else Some new_array.

(** The allocation is [malloc((size1+size2)*sizeof(int))]: [size1 + size2]
    is an [int] addition, as is the index [size1 + i] of the loops. *)
Definition concatenateTwoArrays (junk : nat → Z) (arr1 : list Z) (size1 : Z)
    (arr2 : list Z) (size2 : Z) : option (list Z) :=
  total ← int_add size1 size2;
  let new_array := malloc junk total in
  '(new1, i) ← concat_lockstep (Z.to_nat size1) new_array arr1 size1 arr2 size2 0;
  '(new2, i) ← concat_tail1 (Z.to_nat size1) new1 arr1 size1 i;
  concat_tail2 (Z.to_nat size2) new2 size1 arr2 size2 i.

(** [firstIndexOf]: returns from inside the loop at the first match. *)
Fixpoint firstIndexOf_loop (fuel : nat) (arr : list Z) (n element i : Z) : option Z :=
  if i <? n then
    match fuel with
    | O => None
    | S fuel' =>
        x ← load arr i;
        if x =? element then Some i
        else firstIndexOf_loop fuel' arr n element (i + 1)
    end
  else Some (-1).

Definition firstIndexOf (arr : list Z) (n element : Z) : option Z :=
  firstIndexOf_loop (Z.to_nat n) arr n element 0.

(** [getHashCodeOf]: [val] is an [int], [hash] an [unsigned long long]; the
    sum [hash * 19 + val] is taken in [unsigned long long]. *)
Fixpoint getHashCodeOf_loop (fuel : nat) (arr : list Z) (n i hash : Z) : option Z :=
  if i <? n then
    match fuel with
    | O => None
    | S fuel' =>
        val ← load arr i;
        let val := Z.lxor val (Z.shiftr val 31) in
        getHashCodeOf_loop fuel' arr n (i + 1) (wrap_u64 (hash * 19 + wrap_u64 val))
    end
  else Some hash.

(** The pointer argument is [None] for [NULL]. *)
Definition getHashCodeOf (arr : option (list Z)) (n : Z) : option Z :=
  match arr with
  | None => Some 0
  | Some a => getHashCodeOf_loop (Z.to_nat n) a n 0 1
  end.

(** ** The remaining operations of the header *)

(** [copyOfRange]: [for (i = 0, j = start; i < end - start; ++i, ++j)]. *)
Fixpoint copyOfRange_loop (fuel : nat) (ret_arr arr : list Z) (start end_ i j : Z)
  : option (list Z) :=
  if i <? end_ - start then
    match fuel with
    | O => None
    | S fuel' =>
        x ← load arr j;
        ret' ← store ret_arr i x;
        copyOfRange_loop fuel' ret' arr start end_ (i + 1) (j + 1)
    end
  else Some ret_arr.

(** The allocation is [malloc(end - start)]: [end - start] bytes, which hold
    [(end - start) / sizeof(int)] cells. *)
Definition copyOfRange (sizeof_int : Z) (junk : nat → Z) (arr : list Z)
    (start end_ : Z) : option (list Z) :=
  let ret_arr := malloc junk (Z.quot (end_ - start) sizeof_int) in
  copyOfRange_loop (Z.to_nat (end_ - start)) ret_arr arr start end_ 0 start.

(** [search]: the indices handed to [printf("%d ", i)] are collected, in the
    order of the calls, in [out]. *)
Fixpoint search_loop (fuel : nat) (arr : list Z) (n sr i count : Z) (out : list Z)
  : option (Z * list Z) :=
  if i <? n then
    match fuel with
    | O => None
    | S fuel' =>
        x ← load arr i;
        if x =? sr then search_loop fuel' arr n sr (i + 1) (count + 1) (out ++ [i])
        else search_loop fuel' arr n sr (i + 1) count out
    end
  else Some (count, out).

Definition search (arr : list Z) (n sr : Z) : option (Z * list Z) :=
  search_loop (Z.to_nat n) arr n sr 0 0 [].

(** [getminOf]. *)
Fixpoint getminOf_loop (fuel : nat) (arr : list Z) (n i minimum : Z) : option Z :=
  if i <? n then
    match fuel with
    | O => None
    | S fuel' =>
        x ← load arr i;
        getminOf_loop fuel' arr n (i + 1) (if x <? minimum then x else minimum)
    end
  else Some minimum.

Definition getminOf (arr : list Z) (n : Z) : option Z :=
  minimum ← load arr 0;
  getminOf_loop (Z.to_nat n) arr n 1 minimum.

(** [getmaxOf]. *)
Fixpoint getmaxOf_loop (fuel : nat) (arr : list Z) (n i maximum : Z) : option Z :=
  if i <? n then
    match fuel with
    | O => None
    | S fuel' =>
        x ← load arr i;
        getmaxOf_loop fuel' arr n (i + 1) (if x >? maximum then x else maximum)
    end
  else Some maximum.

Definition getmaxOf (arr : list Z) (n : Z) : option Z :=
  maximum ← load arr 0;
  getmaxOf_loop (Z.to_nat n) arr n 1 maximum.

(** [compareTwoArray]: the loop test
    [iterator<size1 && iterator<size2 && arr1[iterator]==arr2[iterator]]
    reads the two cells only when both bounds hold. *)
Fixpoint compareTwoArray_loop (fuel : nat) (arr1 : list Z) (size1 : Z)
    (arr2 : list Z) (size2 iterator : Z) : option Z :=
  if (iterator <? size1) && (iterator <? size2) then
    x ← load arr1 iterator;
    y ← load arr2 iterator;
    if x =? y then
      match fuel with
      | O => None
      | S fuel' => compareTwoArray_loop fuel' arr1 size1 arr2 size2 (iterator + 1)
      end
    else Some iterator
  else Some iterator.

Definition compareTwoArray (arr1 : list Z) (size1 : Z) (arr2 : list Z) (size2 : Z)
  : option bool :=
  if negb (size1 =? size2) then Some false
  else
    iterator ← compareTwoArray_loop (Z.to_nat size1) arr1 size1 arr2 size2 0;
    Some (iterator =? size1).

(** ** Definitions used in the statements *)

(** The fold the description of [hashCode] gives: seed [1], then
    [h = h*19 + (v xor (v >> 31))] for each value in order, modulo [2^64]. *)
Definition hash_step (h v : Z) : Z :=
  (h * 19 + Z.lxor v (Z.shiftr v 31)) mod 2 ^ 64.

Definition hash_fold (A : list Z) : Z := fold_left hash_step A 1.

(** The counter as the description of [getMaxOccurrence] words it: the
    running maximum starts at the first cell, a strictly larger cell becomes
    the new maximum and resets the count to 1, a cell equal to the running
    maximum increments the count. *)
Fixpoint running_max_count (maximum count : Z) (rest : list Z) : Z :=
  match rest with
  | [] => count
  | x :: rest' =>
      if x >? maximum then running_max_count x 1 rest'
      else if x =? maximum then running_max_count maximum (count + 1) rest'
      else running_max_count maximum count rest'
  end.

Definition described_max_occurrence (arr : list Z) : option Z :=
  match arr with
  | [] => None
  | x :: rest => Some (running_max_count x 1 rest)
  end.

(** One step to the left: the first cell moves to the end. *)
Definition rotate_left1 (l : list Z) : list Z :=
  match l with
  | [] => []
  | x :: t => t ++ [x]
  end.

(** The buffer after [swapNumbers(arr, i, j)]. *)
Definition swapped (arr : list Z) (i j : Z) : list Z :=
  <[Z.to_nat j := sel arr i]> (<[Z.to_nat i := sel arr j]> arr).

(** [reorders lo hi a b]: [b] is [a] with the cells of [lo..hi] permuted
    among themselves and every other cell left alone. *)
Record reorders (lo hi : Z) (a b : list Z) : Prop := mk_reorders {
  reorders_length : length b = length a;
  reorders_perm : b ≡ₚ a;
  reorders_outside : ∀ k, k < lo ∨ hi < k → sel b k = sel a k;
  reorders_inside : ∀ P : Z → Prop,
      (∀ k, lo ≤ k ≤ hi → P (sel a k)) → ∀ k, lo ≤ k ≤ hi → P (sel b k)
}.

(** The loop invariant of the scan of [pivotPartition], started on the
    buffer [arr0] with pivot values [p] (at [low]) and [q] (at [high]): cells
    right of [low] and left of [leftPivot] are below [p], cells from
    [leftPivot] up to [iterator] lie between [p] and [q], cells right of
    [rightPivot] and left of [high] are above [q]. *)
Record scan_inv (low high p q : Z) (arr0 arr : list Z)
    (leftPivot rightPivot iterator : Z) : Prop := mk_scan_inv {
  scan_reorders : reorders (low + 1) (high - 1) arr0 arr;
  scan_bounds : low + 1 ≤ leftPivot ∧ leftPivot ≤ iterator ∧
                iterator ≤ rightPivot + 1 ∧ rightPivot ≤ high - 1;
  scan_left : ∀ k, low < k < leftPivot → Mem.sel arr k < p;
  scan_mid : ∀ k, leftPivot ≤ k < iterator → p ≤ Mem.sel arr k ≤ q;
  scan_right : ∀ k, rightPivot < k < high → q < Mem.sel arr k
}.

(** The cells of [lo..hi] are in ascending order. *)
Definition sorted_range (lo hi : Z) (arr : list Z) : Prop :=
  ∀ i j, lo ≤ i → i ≤ j → j ≤ hi → sel arr i ≤ sel arr j.

(** No cell is smaller than its predecessor: the test of [checkForSort]. *)
Definition no_descent (arr : list Z) (n : Z) : Prop :=
  ∀ k, 1 ≤ k < n → sel arr (k - 1) ≤ sel arr k.

(** The values of a C [int]. *)
Definition is_int32 (v : Z) : Prop := - 2 ^ 31 ≤ v < 2 ^ 31.

(** The indices below [n] whose cell holds [sr], in ascending order. *)
Definition matching_indices (arr : list Z) (n sr : Z) : list Z :=
  filter (λ i, sel arr i = sr) (seqZ 0 n).

(** What the hash makes of one cell: a negative value is replaced by its
    bitwise complement. *)
Definition fold_sign (v : Z) : Z := if decide (v < 0) then - v - 1 else v.

(** ** Sanity checks on concrete buffers *)

Example sort_readme : dualPivotQuickSort [4; 7; 2; 9; 1] 0 4 = Some [1; 2; 4; 7; 9].
Proof. reflexivity. Qed.

Example reverse_five : reverse [1; 2; 3; 4; 5] 5 = Some [5; 4; 3; 2; 1].
Proof. reflexivity. Qed.

Example concat_small :
  concatenateTwoArrays (λ _, 7) [1; 2; 3] 3 [4; 5] 2 = Some [1; 2; 3; 4; 5].
Proof. reflexivity. Qed.

Example hash_minus_one : getHashCodeOf (Some [-1]) 1 = Some 19.
Proof. reflexivity. Qed.

(** ** Facts about the memory primitives *)

Section MemFacts.
Implicit Types (arr : list Z) (i j k v : Z).

Lemma sel_nonneg arr k : 0 ≤ k → sel arr k = default 0 (arr !! Z.to_nat k).
Proof. intros Hk. unfold sel, load. by rewrite decide_True. Qed.

Lemma sel_neg arr k : k < 0 → sel arr k = 0.
Proof. intros Hk. unfold sel, load. by rewrite decide_False by lia. Qed.

Lemma load_in_range arr i :
  0 ≤ i < Z.of_nat (length arr) → load arr i = Some (sel arr i).
Proof.
  intros Hi. unfold sel, load. rewrite decide_True by lia.
  destruct (lookup_lt_is_Some_2 arr (Z.to_nat i)) as [x Hx]; [lia|].
  by rewrite Hx.
Qed.

Lemma load_Some arr i x :
  load arr i = Some x → 0 ≤ i < Z.of_nat (length arr) ∧ sel arr i = x.
Proof.
  unfold sel. intros Hx. rewrite Hx. split; [|done].
  unfold load in Hx. destruct (decide _) as [Hi|Hi]; [|done].
  apply lookup_lt_Some in Hx. lia.
Qed.

Lemma store_in_range arr i v :
  0 ≤ i < Z.of_nat (length arr) → store arr i v = Some (<[Z.to_nat i := v]> arr).
Proof. intros Hi. unfold store. by rewrite decide_True. Qed.

Lemma store_Some arr i v arr' :
  store arr i v = Some arr' →
  0 ≤ i < Z.of_nat (length arr) ∧ arr' = <[Z.to_nat i := v]> arr.
Proof.
  unfold store. destruct (decide _) as [Hi|Hi]; [|done].
  intros [= <-]. done.
Qed.

Lemma sel_insert arr i v k :
  0 ≤ i < Z.of_nat (length arr) →
  sel (<[Z.to_nat i := v]> arr) k = if decide (k = i) then v else sel arr k.
Proof.
  intros Hi. destruct (decide (0 ≤ k)) as [Hk|Hk].
  - rewrite !sel_nonneg by done. case_decide as Hki.
    + subst k. rewrite list_lookup_insert_eq by lia. done.
    + rewrite list_lookup_insert_ne by lia. done.
  - rewrite !sel_neg by lia. by rewrite decide_False by lia.
Qed.

Lemma sel_lookup arr (n : nat) x : arr !! n = Some x → sel arr (Z.of_nat n) = x.
Proof. rewrite sel_nonneg by lia. rewrite Nat2Z.id. by intros ->. Qed.

Lemma lookup_sel arr (n : nat) :
  (n < length arr)%nat → arr !! n = Some (sel arr (Z.of_nat n)).
Proof.
  intros Hn. destruct (lookup_lt_is_Some_2 arr n Hn) as [x Hx].
  by rewrite (sel_lookup _ _ _ Hx).
Qed.

Lemma int_add_in_range (a b : Z) :
  INT_MIN ≤ a + b ≤ INT_MAX → int_add a b = Some (a + b).
Proof. intros Hab. unfold int_add. by rewrite decide_True. Qed.

Lemma int_add_overflow (a b : Z) : INT_MAX < a + b → int_add a b = None.
Proof. intros Hab. unfold int_add. by rewrite decide_False by lia. Qed.

(** Two buffers of one length that agree cell by cell are the same list. *)
Lemma sel_ext arr arr' :
  length arr = length arr' →
  (∀ k, 0 ≤ k < Z.of_nat (length arr) → sel arr k = sel arr' k) →
  arr = arr'.
Proof.
  intros Hlen Hsel. apply list_eq. intros n.
  destruct (decide (n < length arr)%nat) as [Hn|Hn].
  - rewrite !lookup_sel by lia. f_equal. apply Hsel. lia.
  - rewrite !lookup_ge_None_2 by lia. done.
Qed.

End MemFacts.

(** ** Linear search and [firstIndexOf] *)

Lemma searchLIN_loop_found fuel arr n sr i index :
  0 ≤ index → searchLIN_loop fuel arr n sr i index = Some index.
Proof.
  intros Hidx. destruct fuel; simpl;
    replace (index <? 0) with false by lia; by rewrite andb_false_r.
Qed.

Lemma searchLIN_firstIndexOf_loop fuel arr n e : ∀ i,
  0 ≤ i →
  searchLIN_loop fuel arr n e i (-1) = firstIndexOf_loop fuel arr n e i.
Proof.
  induction fuel as [|fuel IH]; intros i Hi; simpl;
    destruct (i <? n); simpl; try done.
  destruct (load arr i) as [x|]; simpl; [|done].
  destruct (x =? e).
  - apply searchLIN_loop_found. lia.
  - apply IH. lia.
Qed.

Lemma firstIndexOf_loop_spec arr n e : ∀ fuel i,
  n = Z.of_nat (length arr) → 0 ≤ i → (Z.to_nat (n - i) ≤ fuel)%nat →
  (∀ j, 0 ≤ j < i → sel arr j ≠ e) →
  ∃ r, firstIndexOf_loop fuel arr n e i = Some r ∧
       ((r = -1 ∧ ∀ j, 0 ≤ j < n → sel arr j ≠ e) ∨
        (0 ≤ r < n ∧ sel arr r = e ∧ ∀ j, 0 ≤ j < r → sel arr j ≠ e)).
Proof.
  induction fuel as [|fuel IH]; intros i Hn Hi Hfuel Hpre; simpl.
  - replace (i <? n) with false by lia.
    eexists; split; [done|]. left. split; [done|]. intros j Hj. apply Hpre. lia.
  - destruct (Z.ltb_spec i n) as [Hlt|Hge].
    + rewrite load_in_range by lia. simpl.
      destruct (Z.eqb_spec (sel arr i) e) as [Heq|Hne].
      * eexists; split; [done|]. right. split; [lia|]. split; [done|].
        intros j Hj. apply Hpre. lia.
      * apply IH; [done|lia|lia|]. intros j Hj.
        destruct (decide (j = i)) as [->|]; [done|]. apply Hpre. lia.
    + eexists; split; [done|]. left. split; [done|]. intros j Hj. apply Hpre. lia.
Qed.

(** C9: [firstIndexOf] (the table's [indexOf]) and [searchLIN] return the
    same result on every buffer, length and element; on a buffer of length
    [n] that result is the smallest index holding the element, or -1 when no
    cell holds it. *)
Theorem firstIndexOf_same_as_searchLIN (arr : list Z) (n e : Z) :
  n = Z.of_nat (length arr) →
  firstIndexOf arr n e = searchLIN arr n e ∧
  ∃ r, firstIndexOf arr n e = Some r ∧
       ((r = -1 ∧ ∀ j, 0 ≤ j < n → sel arr j ≠ e) ∨
        (0 ≤ r < n ∧ sel arr r = e ∧ ∀ j, 0 ≤ j < r → sel arr j ≠ e)).
Proof.
  intros Hn. split.
  - unfold firstIndexOf, searchLIN. symmetry.
    by apply searchLIN_firstIndexOf_loop.
  - unfold firstIndexOf. apply firstIndexOf_loop_spec; [done|lia|lia|].
    intros j Hj. lia.
Qed.

Lemma firstIndexOf_same_as_searchLIN_witness :
  4 = Z.of_nat (length [7; 3; 9; 3]) ∧
  firstIndexOf [7; 3; 9; 3] 4 3 = searchLIN [7; 3; 9; 3] 4 3 ∧
  ∃ r, firstIndexOf [7; 3; 9; 3] 4 3 = Some r ∧
       ((r = -1 ∧ ∀ j, 0 ≤ j < 4 → sel [7; 3; 9; 3] j ≠ 3) ∨
        (0 ≤ r < 4 ∧ sel [7; 3; 9; 3] r = 3 ∧
         ∀ j, 0 ≤ j < r → sel [7; 3; 9; 3] j ≠ 3)).
Proof.
  split; [reflexivity|].
  apply (firstIndexOf_same_as_searchLIN [7; 3; 9; 3] 4 3). reflexivity.
Defined.

(** The two searches agree even when [n] is not the length of the buffer. *)
Lemma firstIndexOf_searchLIN_any (arr : list Z) (n e : Z) :
  firstIndexOf arr n e = searchLIN arr n e.
Proof.
  unfold firstIndexOf, searchLIN. symmetry. by apply searchLIN_firstIndexOf_loop.
Qed.

(** ** The hash code *)

Lemma wrap_u64_step h v :
  wrap_u64 (h * 19 + wrap_u64 (Z.lxor v (Z.shiftr v 31))) = hash_step h v.
Proof. unfold wrap_u64, hash_step. by rewrite Zplus_mod_idemp_r. Qed.

Lemma getHashCodeOf_loop_fold (A : list Z) : ∀ fuel (i : nat) h,
  (length A ≤ i + fuel)%nat →
  getHashCodeOf_loop fuel A (Z.of_nat (length A)) (Z.of_nat i) h
  = Some (fold_left hash_step (drop i A) h).
Proof.
  induction fuel as [|fuel IH]; intros i h Hfuel; simpl.
  - replace (_ <? _) with false by lia. rewrite drop_ge by lia. done.
  - destruct (Z.ltb_spec (Z.of_nat i) (Z.of_nat (length A))) as [Hlt|Hge].
    + rewrite load_in_range by lia. simpl. rewrite wrap_u64_step.
      replace (Z.of_nat i + 1) with (Z.of_nat (S i)) by lia.
      rewrite IH by lia.
      rewrite (drop_S A (sel A (Z.of_nat i)) i) by (apply lookup_sel; lia).
      done.
    + rewrite drop_ge by lia. done.
Qed.

(** C8: on a non-null buffer [getHashCodeOf] is the fold with seed 1 and step
    [h*19 + (v xor (v >> 31))] modulo [2^64], and it is 1 on the empty
    buffer. *)
Theorem getHashCodeOf_is_fold (A : list Z) :
  getHashCodeOf (Some A) (Z.of_nat (length A)) = Some (hash_fold A) ∧
  getHashCodeOf (Some []) 0 = Some 1.
Proof.
  split; [|reflexivity].
  unfold getHashCodeOf, hash_fold. rewrite Nat2Z.id.
  apply (getHashCodeOf_loop_fold A (length A) 0%nat 1). lia.
Qed.

(** For a negative 32-bit value the folded term is the bitwise complement
    [-v - 1], for a non-negative one it is the value itself. *)
Lemma hash_term_sign (v : Z) :
  - 2 ^ 31 ≤ v < 2 ^ 31 →
  Z.lxor v (Z.shiftr v 31) = if decide (v < 0) then - v - 1 else v.
Proof.
  intros Hv. case_decide as Hneg.
  - replace (Z.shiftr v 31) with (-1).
    + rewrite Z.lxor_m1_r. unfold Z.lnot. lia.
    + rewrite Z.shiftr_div_pow2 by lia.
      apply Z.div_unique with (r := v + 2 ^ 31); lia.
  - rewrite Z.shiftr_div_pow2 by lia. rewrite Z.div_small by lia.
    apply Z.lxor_0_r.
Qed.

(** C10: a [NULL] buffer hashes to 0 whatever the length, which is not the
    hash 1 of the empty buffer. *)
Theorem getHashCodeOf_null (n : Z) :
  getHashCodeOf None n = Some 0 ∧
  getHashCodeOf None n ≠ getHashCodeOf (Some []) 0.
Proof. split; [reflexivity|]. simpl. discriminate. Qed.

(** ** The sum *)

Lemma sumAllElements_loop_returns (arr : list Z) n : ∀ fuel i sum,
  n ≤ Z.of_nat (length arr) → 0 ≤ i → (Z.to_nat (n - i) ≤ fuel)%nat →
  ∃ total, sumAllElements_loop fuel arr n i sum = Some total.
Proof.
  induction fuel as [|fuel IH]; intros i sum Hn Hi Hfuel; simpl.
  - replace (i <? n) with false by lia. eauto.
  - destruct (Z.ltb_spec i n) as [Hlt|Hge]; [|eauto].
    rewrite load_in_range by lia. simpl. apply IH; lia.
Qed.

(** C4: [sumAllElements] returns 0 on every buffer, whatever its contents. *)
Theorem sumAllElements_returns_zero (arr : list Z) (n : Z) :
  n ≤ Z.of_nat (length arr) → sumAllElements arr n = Some 0.
Proof.
  intros Hn. unfold sumAllElements.
  destruct (sumAllElements_loop_returns arr n (Z.to_nat n) 0 0) as [total ->];
    [lia..|done].
Qed.

Lemma sumAllElements_returns_zero_witness :
  4 ≤ Z.of_nat (length [1; 2; 3; 4]) ∧ sumAllElements [1; 2; 3; 4] 4 = Some 0.
Proof.
  split; [simpl; lia|].
  apply (sumAllElements_returns_zero [1; 2; 3; 4] 4). simpl. lia.
Defined.

(** The loop itself does add the cells up. *)
Example sumAllElements_loop_adds :
  sumAllElements_loop 4 [1; 2; 3; 4] 4 0 0 = Some 10.
Proof. reflexivity. Qed.

(** ** Occurrences of the maximum *)

(** C5: on [[1; 5; 5]] the maximum 5 occurs twice, and the counter of the
    description yields 2, but [MAX_count] returns 1: it never moves
    [maximum] off the first cell, so every later cell larger than the first
    resets the count. *)
Theorem MAX_count_loses_occurrences :
  MAX_count [1; 5; 5] 3 = Some 1 ∧
  described_max_occurrence [1; 5; 5] = Some 2 ∧
  Z.of_nat (count_occ Z.eq_dec [1; 5; 5] 5) = 2.
Proof. repeat split. Qed.

(** A buffer with a single cell holds its maximum once; the count is 0. *)
Example MAX_count_singleton : MAX_count [5] 1 = Some 0.
Proof. reflexivity. Qed.

(** ** Binary search *)

(** C1: [[1; 2; 3]] is sorted and holds 1 at index 0, yet [searchBIN]
    answers -1 whatever value the uninitialised [mid] starts with: the first
    probe at index 1 sets [end] to [mid - 1 = 0] although [end] is an
    exclusive bound, which drops index 0 from the range. *)
Theorem searchBIN_misses_present_value (mid0 : Z) :
  searchBIN mid0 [1; 2; 3] 3 1 = Some (-1) ∧
  sel [1; 2; 3] 0 = 1 ∧ checkForSort [1; 2; 3] 3 = Some true.
Proof.
  split; [|by split].
  unfold searchBIN. cbn [searchBIN_loop Z.to_nat Pos.to_nat Pos.iter_op].
  destruct (-1 =? mid0); reflexivity.
Qed.

(** When the indeterminate start value of [mid] happens to be -1 the loop
    body never runs at all. *)
Lemma searchBIN_mid_minus_one (arr : list Z) (n sr : Z) :
  searchBIN (-1) arr n sr = Some (-1).
Proof. unfold searchBIN. simpl. by rewrite andb_false_r. Qed.

(** ** Rotation *)

Lemma rotate_shift_spec n : ∀ fuel arr j,
  n = Z.of_nat (length arr) → 0 ≤ j → (Z.to_nat (n - 1 - j) ≤ fuel)%nat →
  ∃ arr', rotate_shift fuel arr n j = Some arr' ∧
          length arr' = length arr ∧
          ∀ k, 0 ≤ k < n →
               sel arr' k = if decide (j ≤ k < n - 1) then sel arr (k + 1)
                            else sel arr k.
Proof.
  induction fuel as [|fuel IH]; intros arr j Hn Hj Hfuel; simpl.
  - replace (j <? n - 1) with false by lia.
    exists arr. repeat split. intros k Hk. rewrite decide_False by lia. done.
  - destruct (Z.ltb_spec j (n - 1)) as [Hlt|Hge].
    + rewrite load_in_range by lia. simpl.
      rewrite store_in_range by lia. simpl.
      destruct (IH (<[Z.to_nat j := sel arr (j + 1)]> arr) (j + 1))
        as (arr' & -> & Hlen & Hsel);
        [rewrite length_insert; lia | lia | lia |].
      exists arr'. split; [done|]. rewrite Hlen, length_insert. split; [done|].
      intros k Hk. rewrite Hsel by done.
      repeat case_decide; rewrite sel_insert by lia;
        repeat case_decide; try lia; try done.
      by subst k.
    + exists arr. repeat split. intros k Hk. rewrite decide_False by lia. done.
Qed.

Lemma sel_rotate_left1 (arr : list Z) k :
  0 ≤ k < Z.of_nat (length arr) →
  sel (rotate_left1 arr) k =
    if decide (k = Z.of_nat (length arr) - 1) then sel arr 0 else sel arr (k + 1).
Proof.
  destruct arr as [|x t]; simpl; [lia|]. intros Hk.
  rewrite !sel_nonneg by lia. case_decide as Hlast.
  - rewrite lookup_app_r by lia.
    replace (Z.to_nat k - length t)%nat with 0%nat by lia. done.
  - rewrite lookup_app_l by lia.
    replace (Z.to_nat (k + 1)) with (S (Z.to_nat k)) by lia. done.
Qed.

Lemma length_rotate_left1 (arr : list Z) : length (rotate_left1 arr) = length arr.
Proof. destruct arr; simpl; [done|]. rewrite length_app. simpl. lia. Qed.

Lemma rotate_loop_spec n k : ∀ fuel arr i,
  n = Z.of_nat (length arr) → 0 < n → 0 ≤ i → (Z.to_nat (k - i) ≤ fuel)%nat →
  rotate_loop fuel arr n k i = Some (Nat.iter (Z.to_nat (k - i)) rotate_left1 arr).
Proof.
  induction fuel as [|fuel IH]; intros arr i Hn Hpos Hi Hfuel; simpl.
  - replace (i <? k) with false by lia.
    replace (Z.to_nat (k - i)) with 0%nat by lia. done.
  - destruct (Z.ltb_spec i k) as [Hlt|Hge].
    + rewrite load_in_range by lia. simpl.
      destruct (rotate_shift_spec n (Z.to_nat n) arr 0)
        as (arr1 & -> & Hlen & Hsel); [done|lia|lia|]. simpl.
      rewrite store_in_range by lia. simpl.
      assert (<[Z.to_nat (n - 1) := sel arr 0]> arr1 = rotate_left1 arr) as ->.
      { apply sel_ext.
        - rewrite length_insert, length_rotate_left1. done.
        - rewrite length_insert. intros j Hj.
          rewrite sel_insert, sel_rotate_left1 by lia.
          repeat case_decide; try lia; try done.
          rewrite Hsel by lia. rewrite decide_True by lia. done. }
      rewrite IH by (rewrite ?length_rotate_left1; lia).
      replace (Z.to_nat (k - i)) with (S (Z.to_nat (k - (i + 1)))) by lia.
      by rewrite Nat.iter_succ_r.
    + replace (Z.to_nat (k - i)) with 0%nat by lia. done.
Qed.

Lemma iter_rotate_left1 (arr : list Z) : ∀ m,
  (m ≤ length arr)%nat → Nat.iter m rotate_left1 arr = drop m arr ++ take m arr.
Proof.
  induction m as [|m IH]; intros Hm; simpl.
  - by rewrite app_nil_r.
  - rewrite IH by lia.
    destruct (lookup_lt_is_Some_2 arr m) as [x Hx]; [lia|].
    rewrite (drop_S _ _ _ Hx), (take_S_r _ _ _ Hx). simpl.
    by rewrite <- app_assoc.
Qed.

(** What [rotate] computes on a non-empty buffer and a non-negative [k]: the
    cells from index [k mod n] on, followed by the first [k mod n] cells. *)
Lemma rotate_moves_left (arr : list Z) (n k : Z) :
  n = Z.of_nat (length arr) → 0 < n → 0 ≤ k →
  rotate arr n k
  = Some (drop (Z.to_nat (k mod n)) arr ++ take (Z.to_nat (k mod n)) arr).
Proof.
  intros Hn Hpos Hk. unfold rotate. rewrite decide_False by lia.
  rewrite Z.rem_mod_nonneg by lia.
  pose proof (Z.mod_pos_bound k n Hpos) as Hm.
  rewrite rotate_loop_spec by lia. rewrite Z.sub_0_r.
  f_equal. apply iter_rotate_left1. lia.
Qed.

(** C2: [rotate([1,2,3,4,5], 5, 2)] leaves [[3; 4; 5; 1; 2]] in the buffer,
    a rotation by two positions to the left, not the [[4; 5; 1; 2; 3]] of a
    rotation to the right. *)
Theorem rotate_example_goes_left :
  rotate [1; 2; 3; 4; 5] 5 2 = Some [3; 4; 5; 1; 2] ∧
  rotate [1; 2; 3; 4; 5] 5 2 ≠ Some [4; 5; 1; 2; 3].
Proof. split; [reflexivity|]. simpl. discriminate. Qed.

(** ** Reversal *)

Lemma sel_rev (arr : list Z) k :
  0 ≤ k < Z.of_nat (length arr) →
  sel (rev arr) k = sel arr (Z.of_nat (length arr) - 1 - k).
Proof.
  intros Hk. rewrite !sel_nonneg by lia. rewrite rev_alt.
  change (rev_append arr []) with (list.reverse arr).
  rewrite reverse_lookup by lia. do 2 f_equal. lia.
Qed.

Lemma reverse_loop_spec n : ∀ fuel arr i,
  n = Z.of_nat (length arr) → 0 ≤ i → (Z.to_nat (n / 2 - i) ≤ fuel)%nat →
  ∃ arr', reverse_loop fuel arr n i = Some arr' ∧
          length arr' = length arr ∧
          ∀ k, 0 ≤ k < n →
               sel arr' k = if decide (i ≤ k < n - i) then sel arr (n - 1 - k)
                            else sel arr k.
Proof.
  pose proof (Z.div_mod n 2 ltac:(lia)) as Hdiv.
  pose proof (Z.mod_pos_bound n 2 ltac:(lia)) as Hmod.
  assert (∀ arr i k, n = Z.of_nat (length arr) → n / 2 ≤ i → 0 ≤ k < n →
            sel arr k = if decide (i ≤ k < n - i) then sel arr (n - 1 - k)
                        else sel arr k) as Hdone.
  { intros arr i k Hn Hi Hk. case_decide; [|done]. f_equal. lia. }
  induction fuel as [|fuel IH]; intros arr i Hn Hi Hfuel; simpl;
    rewrite Z.quot_div_nonneg by lia.
  - replace (i <? n / 2) with false by lia.
    exists arr. repeat split. intros k Hk. apply Hdone; [done|lia|done].
  - destruct (Z.ltb_spec i (n / 2)) as [Hlt|Hge].
    + rewrite !load_in_range by lia. simpl.
      rewrite store_in_range by lia. simpl.
      rewrite store_in_range by (rewrite length_insert; lia). simpl.
      match goal with |- context [reverse_loop fuel ?a n (i + 1)] =>
        destruct (IH a (i + 1)) as (arr' & -> & Hlen & Hsel);
          [rewrite !length_insert; lia | lia | lia |]
      end.
      exists arr'. split; [done|]. rewrite Hlen, !length_insert. split; [done|].
      intros k Hk. rewrite Hsel by done.
      repeat case_decide;
        rewrite !sel_insert by (rewrite ?length_insert; lia);
        repeat case_decide; try lia; try done; f_equal; lia.
    + exists arr. repeat split. intros k Hk. apply Hdone; [done|lia|done].
Qed.

(** [reverse] leaves the reversed list in the buffer. *)
Lemma reverse_is_rev (arr : list Z) :
  reverse arr (Z.of_nat (length arr)) = Some (rev arr).
Proof.
  unfold reverse.
  destruct (reverse_loop_spec (Z.of_nat (length arr))
              (Z.to_nat (Z.of_nat (length arr))) arr 0)
    as (arr' & -> & Hlen & Hsel);
    [done | lia | Z.to_euclidean_division_equations; lia |].
  f_equal. apply sel_ext.
  - by rewrite length_rev.
  - rewrite Hlen. intros k Hk. rewrite Hsel, sel_rev by lia.
    rewrite decide_True by lia. done.
Qed.

(** C7: reversing a buffer of length [n] twice restores its contents. *)
Theorem reverse_reverse (A : list Z) :
  (A1 ← reverse A (Z.of_nat (length A)); reverse A1 (Z.of_nat (length A)))
  = Some A.
Proof.
  rewrite reverse_is_rev. simpl.
  rewrite <- (length_rev A) at 1. rewrite reverse_is_rev.
  by rewrite rev_involutive.
Qed.

(** ** Concatenation *)

Section Concat.
Variables (arr1 arr2 : list Z).
Local Abbreviation size1 := (Z.of_nat (length arr1)).
Local Abbreviation size2 := (Z.of_nat (length arr2)).

Lemma sel_app k :
  0 ≤ k →
  sel (arr1 ++ arr2) k = if decide (k < size1) then sel arr1 k
                         else sel arr2 (k - size1).
Proof.
  intros Hk. case_decide; rewrite !sel_nonneg by lia.
  - rewrite lookup_app_l by lia. done.
  - rewrite lookup_app_r by lia. do 2 f_equal. lia.
Qed.

Lemma length_malloc junk n : 0 ≤ n → Z.of_nat (length (malloc junk n)) = n.
Proof. intros Hn. unfold malloc. rewrite length_map, length_seq. lia. Qed.

(** The two sizes add up to an [int]. *)
Hypothesis Hsum : size1 + size2 ≤ INT_MAX.

(** Every store of the three loops writes, at some index [p], the cell
    that [arr1 ++ arr2] has at [p]. *)
Lemma concat_lockstep_spec : ∀ fuel new i,
  Z.of_nat (length new) = size1 + size2 → 0 ≤ i →
  (Z.to_nat (size1 - i) ≤ fuel)%nat →
  ∃ new' i', concat_lockstep fuel new arr1 size1 arr2 size2 i = Some (new', i') ∧
    length new' = length new ∧ i ≤ i' ∧
    (i' < size1 ∧ i' < size2 → False) ∧
    (i' = i ∨ i' ≤ size1 ∧ i' ≤ size2) ∧
    ∀ p, 0 ≤ p < size1 + size2 →
         sel new' p = if decide (i ≤ p < i' ∨ size1 + i ≤ p < size1 + i')
                      then sel (arr1 ++ arr2) p else sel new p.
Proof using Hsum.
  induction fuel as [|fuel IH]; intros new i Hlen Hi Hfuel; simpl.
  - replace (i <? size1) with false by lia. simpl.
    exists new, i. repeat split; try lia.
    intros p Hp. rewrite decide_False by lia. done.
  - destruct (Z.ltb_spec i size1) as [H1|H1];
      destruct (Z.ltb_spec i size2) as [H2|H2]; simpl;
      try (exists new, i; repeat split; try lia;
           intros p Hp; rewrite decide_False by lia; done).
    rewrite (load_in_range arr1), (load_in_range arr2)
      by lia.
    simpl. rewrite store_in_range by lia. simpl.
    rewrite int_add_in_range by (unfold INT_MIN, INT_MAX in *; lia). simpl.
    rewrite store_in_range by (rewrite length_insert; lia). simpl.
    match goal with |- context [concat_lockstep fuel ?a _ _ _ _ (i + 1)] =>
      destruct (IH a (i + 1)) as (new' & i' & -> & Hlen' & Hle & Hstop & Hor & Hsel);
        [rewrite !length_insert; lia | lia | lia |]
    end.
    exists new', i'. split; [done|]. rewrite Hlen', !length_insert.
    repeat split; try lia.
    intros p Hp. rewrite Hsel by done.
    repeat case_decide;
      rewrite ?sel_insert by (rewrite ?length_insert; lia);
      rewrite ?sel_app by lia;
      repeat case_decide; try lia; try done; f_equal; lia.
Qed.

Lemma concat_tail1_spec : ∀ fuel new i,
  Z.of_nat (length new) = size1 + size2 → 0 ≤ i →
  (Z.to_nat (size1 - i) ≤ fuel)%nat →
  ∃ new' i', concat_tail1 fuel new arr1 size1 i = Some (new', i') ∧
    length new' = length new ∧ i' = Z.max i size1 ∧
    ∀ p, 0 ≤ p < size1 + size2 →
         sel new' p = if decide (i ≤ p < size1)
                      then sel (arr1 ++ arr2) p else sel new p.
Proof using Hsum.
  induction fuel as [|fuel IH]; intros new i Hlen Hi Hfuel; simpl.
  - replace (i <? size1) with false by lia.
    exists new, i. repeat split; try lia.
    intros p Hp. rewrite decide_False by lia. done.
  - destruct (Z.ltb_spec i size1) as [H1|H1]; simpl.
    + rewrite load_in_range by lia. simpl.
      rewrite store_in_range by lia. simpl.
      match goal with |- context [concat_tail1 fuel ?a _ _ (i + 1)] =>
        destruct (IH a (i + 1)) as (new' & i' & -> & Hlen' & Hi' & Hsel);
          [rewrite !length_insert; lia | lia | lia |]
      end.
      exists new', i'. split; [done|]. rewrite Hlen', !length_insert.
      repeat split; try lia.
      intros p Hp. rewrite Hsel by done.
      repeat case_decide;
        rewrite ?sel_insert by (rewrite ?length_insert; lia);
        rewrite ?sel_app by lia;
        repeat case_decide; try lia; try done; f_equal; lia.
    + exists new, i. repeat split; try lia.
      intros p Hp. rewrite decide_False by lia. done.
Qed.

Lemma concat_tail2_spec : ∀ fuel new i,
  Z.of_nat (length new) = size1 + size2 → 0 ≤ i →
  (Z.to_nat (size2 - i) ≤ fuel)%nat →
  ∃ new', concat_tail2 fuel new size1 arr2 size2 i = Some new' ∧
    length new' = length new ∧
    ∀ p, 0 ≤ p < size1 + size2 →
         sel new' p = if decide (size1 + i ≤ p < size1 + size2)
                      then sel (arr1 ++ arr2) p else sel new p.
Proof using Hsum.
  induction fuel as [|fuel IH]; intros new i Hlen Hi Hfuel; simpl.
  - replace (i <? size2) with false by lia.
    exists new. repeat split; try lia.
    intros p Hp. rewrite decide_False by lia. done.
  - destruct (Z.ltb_spec i size2) as [H2|H2]; simpl.
    + rewrite load_in_range by lia. simpl.
      rewrite int_add_in_range by (unfold INT_MIN, INT_MAX in *; lia). simpl.
      rewrite store_in_range by lia. simpl.
      match goal with |- context [concat_tail2 fuel ?a _ _ _ (i + 1)] =>
        destruct (IH a (i + 1)) as (new' & -> & Hlen' & Hsel);
          [rewrite !length_insert; lia | lia | lia |]
      end.
      exists new'. split; [done|]. rewrite Hlen', !length_insert.
      repeat split; try lia.
      intros p Hp. rewrite Hsel by done.
      repeat case_decide;
        rewrite ?sel_insert by (rewrite ?length_insert; lia);
        rewrite ?sel_app by lia;
        repeat case_decide; try lia; try done; f_equal; lia.
    + exists new. repeat split; try lia.
      intros p Hp. rewrite decide_False by lia. done.
Qed.

Lemma concatenateTwoArrays_app junk :
  concatenateTwoArrays junk arr1 size1 arr2 size2 = Some (arr1 ++ arr2).
Proof using Hsum.
  unfold concatenateTwoArrays.
  rewrite int_add_in_range by (unfold INT_MIN, INT_MAX in *; lia). simpl.
  pose proof (length_malloc junk (size1 + size2) ltac:(lia)) as Hlen0.
  destruct (concat_lockstep_spec (Z.to_nat size1) (malloc junk (size1 + size2)) 0)
    as (new1 & i1 & -> & Hlen1 & Hle1 & Hstop & Hor & Hsel1); [done|lia|lia|].
  simpl.
  destruct (concat_tail1_spec (Z.to_nat size1) new1 i1)
    as (new2 & i2 & -> & Hlen2 & Hi2 & Hsel2); [lia|lia|lia|].
  simpl.
  destruct (concat_tail2_spec (Z.to_nat size2) new2 i2)
    as (new3 & -> & Hlen3 & Hsel3); [lia|lia|lia|].
  f_equal. apply sel_ext.
  - rewrite length_app. lia.
  - intros p Hp. rewrite Hsel3, Hsel2, Hsel1 by lia.
    repeat case_decide; try done; lia.
Qed.

End Concat.

(** C6, as amended: when the two sizes add up to an [int],
    [concatenateTwoArrays] returns a fresh buffer of [size1 + size2] cells
    holding [arr1] followed by [arr2], whatever the allocation held before:
    cell [i] is [arr1[i]] below [size1] and [arr2[i - size1]] from there
    on. *)
Theorem concatenateTwoArrays_correct (junk : nat → Z) (arr1 arr2 : list Z) :
  Z.of_nat (length arr1) + Z.of_nat (length arr2) ≤ INT_MAX →
  ∃ new_array,
    concatenateTwoArrays junk arr1 (Z.of_nat (length arr1))
                         arr2 (Z.of_nat (length arr2)) = Some new_array ∧
    new_array = arr1 ++ arr2 ∧
    Z.of_nat (length new_array) = Z.of_nat (length arr1) + Z.of_nat (length arr2) ∧
    (∀ i, 0 ≤ i < Z.of_nat (length arr1) → sel new_array i = sel arr1 i) ∧
    (∀ i, Z.of_nat (length arr1) ≤ i
          < Z.of_nat (length arr1) + Z.of_nat (length arr2) →
          sel new_array i = sel arr2 (i - Z.of_nat (length arr1))).
Proof.
  intros Hsum.
  exists (arr1 ++ arr2). split; [by apply concatenateTwoArrays_app|].
  split; [done|]. split; [rewrite length_app; lia|].
  split; intros i Hi; rewrite sel_app by lia.
  - by rewrite decide_True by lia.
  - by rewrite decide_False by lia.
Qed.

Lemma concatenateTwoArrays_correct_witness :
  Z.of_nat (length [1; 2; 3]) + Z.of_nat (length [4; 5]) ≤ INT_MAX ∧
  ∃ new_array,
    concatenateTwoArrays (λ _, 7) [1; 2; 3] (Z.of_nat (length [1; 2; 3]))
                         [4; 5] (Z.of_nat (length [4; 5])) = Some new_array ∧
    new_array = [1; 2; 3] ++ [4; 5] ∧
    Z.of_nat (length new_array)
    = Z.of_nat (length [1; 2; 3]) + Z.of_nat (length [4; 5]) ∧
    (∀ i, 0 ≤ i < Z.of_nat (length [1; 2; 3]) → sel new_array i = sel [1; 2; 3] i) ∧
    (∀ i, Z.of_nat (length [1; 2; 3]) ≤ i
          < Z.of_nat (length [1; 2; 3]) + Z.of_nat (length [4; 5]) →
          sel new_array i = sel [4; 5] (i - Z.of_nat (length [1; 2; 3]))).
Proof.
  split; [unfold INT_MAX; simpl; lia|].
  apply (concatenateTwoArrays_correct (λ _, 7) [1; 2; 3] [4; 5]).
  unfold INT_MAX. simpl. lia.
Defined.

(** Where C6 as first stated fails: a buffer of [2^30] cells concatenated
    with itself.  Each size is an [int], their sum [2^31] is not, and the
    call does not return a buffer. *)
Lemma concatenateTwoArrays_sizes_overflow :
  Z.of_nat (length (replicate (Z.to_nat (2 ^ 30)) 0)) = 2 ^ 30 ∧
  ¬ ∃ new_array,
      concatenateTwoArrays (λ _, 0)
        (replicate (Z.to_nat (2 ^ 30)) 0)
        (Z.of_nat (length (replicate (Z.to_nat (2 ^ 30)) 0)))
        (replicate (Z.to_nat (2 ^ 30)) 0)
        (Z.of_nat (length (replicate (Z.to_nat (2 ^ 30)) 0)))
      = Some new_array.
Proof.
  assert (Z.of_nat (length (replicate (Z.to_nat (2 ^ 30)) 0)) = 2 ^ 30) as Hlen.
  { rewrite length_replicate. apply Z2Nat.id. lia. }
  split; [exact Hlen|].
  intros [new_array Hrun]. rewrite Hlen in Hrun.
  unfold concatenateTwoArrays in Hrun.
  rewrite int_add_overflow in Hrun by (unfold INT_MAX; lia).
  discriminate Hrun.
Qed.

(** ** Swaps and reorderings of a range *)

Section Swaps.
Implicit Types (arr a b c : list Z) (i j k lo hi : Z).

Lemma swapNumbers_in_range arr i j :
  0 ≤ i < Z.of_nat (length arr) → 0 ≤ j < Z.of_nat (length arr) →
  swapNumbers arr i j = Some (swapped arr i j).
Proof.
  intros Hi Hj. unfold swapNumbers, swapped.
  rewrite !load_in_range by done. simpl.
  rewrite store_in_range by done. simpl.
  rewrite store_in_range by (rewrite length_insert; done). done.
Qed.

Lemma length_swapped arr i j : length (swapped arr i j) = length arr.
Proof. unfold swapped. by rewrite !length_insert. Qed.

Lemma sel_swapped arr i j k :
  0 ≤ i < Z.of_nat (length arr) → 0 ≤ j < Z.of_nat (length arr) →
  sel (swapped arr i j) k =
    if decide (k = j) then sel arr i
    else if decide (k = i) then sel arr j else sel arr k.
Proof.
  intros Hi Hj. unfold swapped.
  rewrite sel_insert by (rewrite length_insert; done).
  case_decide; [done|]. by rewrite sel_insert.
Qed.

Lemma insert_move (l : list Z) : ∀ (n : nat) (x y : Z),
  l !! n = Some y → y :: <[n := x]> l ≡ₚ x :: l.
Proof.
  induction l as [|a l IH]; intros [|n] x y Hn; simplify_eq/=.
  - apply Permutation_swap.
  - rewrite Permutation_swap, (IH n x y Hn). apply Permutation_swap.
Qed.

Lemma insert_swap_Permutation (l : list Z) : ∀ (m n : nat) (x y : Z),
  l !! m = Some x → l !! n = Some y → <[n := x]> (<[m := y]> l) ≡ₚ l.
Proof.
  induction l as [|a l IH]; intros [|m] [|n] x y Hm Hn; simplify_eq/=.
  - done.
  - by apply insert_move.
  - by apply insert_move.
  - by rewrite (IH m n x y).
Qed.

Lemma swapped_Permutation arr i j :
  0 ≤ i < Z.of_nat (length arr) → 0 ≤ j < Z.of_nat (length arr) →
  swapped arr i j ≡ₚ arr.
Proof.
  intros Hi Hj. unfold swapped. apply insert_swap_Permutation.
  - rewrite (lookup_sel arr (Z.to_nat i)) by lia. by rewrite Z2Nat.id by lia.
  - rewrite (lookup_sel arr (Z.to_nat j)) by lia. by rewrite Z2Nat.id by lia.
Qed.

Lemma reorders_refl lo hi a : reorders lo hi a a.
Proof. by split. Qed.

Lemma reorders_trans lo hi a b c :
  reorders lo hi a b → reorders lo hi b c → reorders lo hi a c.
Proof.
  intros [L1 P1 O1 I1] [L2 P2 O2 I2]. split.
  - congruence.
  - by rewrite P2.
  - intros k Hk. rewrite O2, O1 by done. done.
  - intros P HP. apply I2, I1, HP.
Qed.

Lemma reorders_weaken lo hi lo' hi' a b :
  lo' ≤ lo → hi ≤ hi' → reorders lo hi a b → reorders lo' hi' a b.
Proof.
  intros Hlo Hhi [L1 P1 O1 I1]. split; [done|done|..].
  - intros k Hk. apply O1. lia.
  - intros P HP k Hk.
    destruct (decide (lo ≤ k ≤ hi)) as [Hin|Hout].
    + apply I1; [|done]. intros k' Hk'. apply HP. lia.
    + rewrite O1 by lia. by apply HP.
Qed.

Lemma reorders_swapped lo hi arr i j :
  0 ≤ i < Z.of_nat (length arr) → 0 ≤ j < Z.of_nat (length arr) →
  lo ≤ i ≤ hi → lo ≤ j ≤ hi →
  reorders lo hi arr (swapped arr i j).
Proof.
  intros Hi Hj Hilo Hjlo. split.
  - apply length_swapped.
  - by apply swapped_Permutation.
  - intros k Hk. rewrite sel_swapped by done.
    rewrite !decide_False by lia. done.
  - intros P HP k Hk. rewrite sel_swapped by done.
    repeat case_decide; by apply HP.
Qed.

End Swaps.

(** ** The dual-pivot partition *)

Section Scan.
Variables (low high p q : Z) (arr0 : list Z).
Hypothesis Hlow : 0 ≤ low.
Hypothesis Hhigh : high < Z.of_nat (length arr0).
Hypothesis Hp : sel arr0 low = p.
Hypothesis Hq : sel arr0 high = q.

Lemma scan_inv_stop arr lp rp it :
  scan_inv low high p q arr0 arr lp rp it → rp < it → scan_inv low high p q arr0 arr lp rp (rp + 1).
Proof.
  intros [Hre Hb HL HM HR] Hstop. replace (rp + 1) with it by lia. by split.
Qed.

Lemma pivotPartition_loop_spec : ∀ fuel arr lp rp it,
  scan_inv low high p q arr0 arr lp rp it → (Z.to_nat (rp + 1 - it) ≤ fuel)%nat →
  ∃ arr' lp' rp',
    pivotPartition_loop fuel arr low high lp rp it = Some (arr', lp', rp') ∧
    scan_inv low high p q arr0 arr' lp' rp' (rp' + 1).
Proof using Hlow Hhigh Hp Hq.
  induction fuel as [|fuel IH]; intros arr lp rp it Hinv Hfuel; simpl.
  { replace (it <=? rp) with false by lia.
    exists arr, lp, rp. split; [done|]. apply (scan_inv_stop _ _ _ it); [done|lia]. }
  destruct (Z.leb_spec it rp) as [Hgo|Hstop];
    [|exists arr, lp, rp; split; [done|]; by apply (scan_inv_stop _ _ _ it)].
  destruct Hinv as [Hre Hb HL HM HR].
  pose proof (reorders_length _ _ _ _ Hre) as Hlen.
  pose proof (reorders_outside _ _ _ _ Hre low ltac:(lia)) as Hplow.
  pose proof (reorders_outside _ _ _ _ Hre high ltac:(lia)) as Hqhigh.
  rewrite !load_in_range by lia. simpl.
  destruct (Z.ltb_spec (sel arr it) (sel arr low)) as [Hsmall|Hnotsmall].
  - rewrite swapNumbers_in_range by lia. simpl.
    apply IH; [|lia]. split.
    + eapply reorders_trans; [done|]. apply reorders_swapped; lia.
    + lia.
    + intros k Hk. rewrite sel_swapped by lia.
      pose proof (HL k). repeat case_decide; lia.
    + intros k Hk. rewrite sel_swapped by lia.
      pose proof (HM k). pose proof (HM lp). repeat case_decide; lia.
    + intros k Hk. rewrite sel_swapped by lia.
      pose proof (HR k). repeat case_decide; lia.
  - rewrite Z.gtb_ltb.
    destruct (Z.ltb_spec (sel arr high) (sel arr it)) as [Hbig|Hnotbig].
    + rewrite swapNumbers_in_range by lia. simpl.
      apply IH; [|lia]. split.
      * eapply reorders_trans; [done|]. apply reorders_swapped; lia.
      * lia.
      * intros k Hk. rewrite sel_swapped by lia.
        pose proof (HL k). repeat case_decide; lia.
      * intros k Hk. rewrite sel_swapped by lia.
        pose proof (HM k). repeat case_decide; lia.
      * intros k Hk. rewrite sel_swapped by lia.
        pose proof (HR k). repeat case_decide; lia.
    + apply IH; [|lia]. split; [done|lia|done|..|done].
      intros k Hk. pose proof (HM k).
      destruct (decide (k = it)) as [->|]; lia.
Qed.

End Scan.

(** What [pivotPartition] establishes on a range of at least two cells: the
    two reported positions hold the pivot values, smaller cells are to the
    left of the first, larger cells to the right of the second, and the
    cells in between lie between the two pivot values. *)
Lemma pivotPartition_spec (arr : list Z) (low high : Z) :
  0 ≤ low → low < high → high < Z.of_nat (length arr) →
  ∃ arr' l r,
    pivotPartition arr low high = Some (arr', record.mk l r) ∧
    reorders low high arr arr' ∧
    low ≤ l ∧ l < r ∧ r ≤ high ∧
    sel arr' l ≤ sel arr' r ∧
    (∀ k, low ≤ k < l → sel arr' k < sel arr' l) ∧
    (∀ k, l < k < r → sel arr' l ≤ sel arr' k ≤ sel arr' r) ∧
    (∀ k, r < k ≤ high → sel arr' r < sel arr' k).
Proof.
  intros Hlow Hlt Hhigh. unfold pivotPartition.
  rewrite !load_in_range by lia. simpl.
  set (arr0 := if sel arr low >? sel arr high then swapped arr low high else arr).
  assert ((if sel arr low >? sel arr high then swapNumbers arr low high
           else Some arr) = Some arr0) as ->.
  { unfold arr0. destruct (_ >? _); [|done]. apply swapNumbers_in_range; lia. }
  assert (reorders low high arr arr0) as Hre0.
  { unfold arr0. destruct (_ >? _); [|apply reorders_refl].
    apply reorders_swapped; lia. }
  assert (sel arr0 low ≤ sel arr0 high) as Hpq.
  { unfold arr0. rewrite Z.gtb_ltb.
    destruct (Z.ltb_spec (sel arr high) (sel arr low)); [|done].
    rewrite !sel_swapped by lia. repeat case_decide; lia. }
  pose proof (reorders_length _ _ _ _ Hre0) as Hlen0. simpl.
  destruct (pivotPartition_loop_spec low high (sel arr0 low) (sel arr0 high) arr0
              Hlow ltac:(lia) eq_refl eq_refl
              (Z.to_nat (high - low)) arr0 (low + 1) (high - 1) (low + 1))
    as (arr1 & lp & rp & -> & [Hre1 Hb HL HM HR]).
  { split; [apply reorders_refl|lia|intros; lia..]. }
  { lia. }
  simpl.
  pose proof (reorders_length _ _ _ _ Hre1) as Hlen1.
  pose proof (reorders_outside _ _ _ _ Hre1 low ltac:(lia)) as Hplow.
  pose proof (reorders_outside _ _ _ _ Hre1 high ltac:(lia)) as Hqhigh.
  rewrite swapNumbers_in_range by lia. simpl.
  rewrite swapNumbers_in_range by (rewrite length_swapped; lia). simpl.
  eexists _, (lp - 1), (rp + 1). split; [done|].
  assert (∀ k, sel (swapped (swapped arr1 low (lp - 1)) high (rp + 1)) k =
               if decide (k = lp - 1) then sel arr1 low
               else if decide (k = rp + 1) then sel arr1 high
               else if decide (k = low) then sel arr1 (lp - 1)
               else if decide (k = high) then sel arr1 (rp + 1)
               else sel arr1 k) as Hsel.
  { intros k. rewrite sel_swapped by (rewrite length_swapped; lia).
    rewrite !sel_swapped by lia. repeat case_decide; try lia; try done. }
  split.
  { eapply reorders_trans; [done|].
    eapply reorders_trans; [by apply (reorders_weaken (low + 1) (high - 1)); [lia|lia|]|].
    apply (reorders_trans _ _ _ (swapped arr1 low (lp - 1)));
      apply reorders_swapped; rewrite ?length_swapped; lia. }
  pose proof (HL (lp - 1)) as HLl. pose proof (HR (rp + 1)) as HRr.
  do 3 (split; [lia|]). split; [|split; [|split]].
  - rewrite !Hsel. repeat case_decide; lia.
  - intros k Hk. rewrite !Hsel. pose proof (HL k). repeat case_decide; lia.
  - intros k Hk. rewrite !Hsel. pose proof (HM k). repeat case_decide; lia.
  - intros k Hk. rewrite !Hsel. pose proof (HR k). repeat case_decide; lia.
Qed.

(** ** The sort *)

Lemma sorted_range_outside lo hi lo' hi' a b :
  reorders lo' hi' a b → (hi' < lo ∨ hi < lo') →
  sorted_range lo hi a → sorted_range lo hi b.
Proof.
  intros Hre Hdisj Hs i j Hi Hij Hj.
  rewrite !(reorders_outside _ _ _ _ Hre) by lia. by apply Hs.
Qed.

Lemma dualPivotQuickSort_rec_spec : ∀ fuel arr low high,
  (low < high → 0 ≤ low ∧ high < Z.of_nat (length arr)) →
  (Z.to_nat (high - low) ≤ fuel)%nat →
  ∃ arr', dualPivotQuickSort_rec fuel arr low high = Some arr' ∧
          reorders low high arr arr' ∧ sorted_range low high arr'.
Proof.
  induction fuel as [|fuel IH]; intros arr low high Hrange Hfuel; simpl;
    rewrite Z.geb_leb.
  { replace (high <=? low) with true by lia.
    exists arr. split; [done|]. split; [apply reorders_refl|].
    intros i j Hi Hij Hj. replace j with i by lia. done. }
  destruct (Z.leb_spec high low) as [Hbase|Hlt].
  { exists arr. split; [done|]. split; [apply reorders_refl|].
    intros i j Hi Hij Hj. replace j with i by lia. done. }
  destruct (Hrange Hlt) as [Hlow Hhigh].
  destruct (pivotPartition_spec arr low high Hlow Hlt Hhigh)
    as (arr1 & l & r & -> & Hre1 & Hl & Hlr & Hr & Hpq & HL & HM & HR).
  simpl.
  pose proof (reorders_length _ _ _ _ Hre1) as Hlen1.
  destruct (IH arr1 low (l - 1)) as (arr2 & -> & Hre2 & Hs2); [lia|lia|]. simpl.
  pose proof (reorders_length _ _ _ _ Hre2) as Hlen2.
  destruct (IH arr2 (l + 1) (r - 1)) as (arr3 & -> & Hre3 & Hs3); [lia|lia|]. simpl.
  pose proof (reorders_length _ _ _ _ Hre3) as Hlen3.
  destruct (IH arr3 (r + 1) high) as (arr4 & -> & Hre4 & Hs4); [lia|lia|].
  exists arr4. split; [done|]. split.
  { eapply reorders_trans; [done|].
    eapply reorders_trans; [by apply (reorders_weaken low (l - 1)); [lia|lia|]|].
    eapply reorders_trans; [by apply (reorders_weaken (l + 1) (r - 1)); [lia|lia|]|].
    by apply (reorders_weaken (r + 1) high); [lia|lia|]. }
  (* the pivots and the three regions in the final buffer *)
  assert (sel arr4 l = sel arr1 l) as Hpl.
  { rewrite (reorders_outside _ _ _ _ Hre4), (reorders_outside _ _ _ _ Hre3),
      (reorders_outside _ _ _ _ Hre2) by lia. done. }
  assert (sel arr4 r = sel arr1 r) as Hpr.
  { rewrite (reorders_outside _ _ _ _ Hre4), (reorders_outside _ _ _ _ Hre3),
      (reorders_outside _ _ _ _ Hre2) by lia. done. }
  assert (∀ k, low ≤ k ≤ l - 1 → sel arr4 k < sel arr1 l) as HL4.
  { intros k Hk.
    rewrite (reorders_outside _ _ _ _ Hre4), (reorders_outside _ _ _ _ Hre3) by lia.
    apply (reorders_inside _ _ _ _ Hre2 (λ v, v < sel arr1 l)); [|done].
    intros k' Hk'. apply HL. lia. }
  assert (∀ k, l + 1 ≤ k ≤ r - 1 → sel arr1 l ≤ sel arr4 k ≤ sel arr1 r) as HM4.
  { intros k Hk. rewrite (reorders_outside _ _ _ _ Hre4) by lia.
    apply (reorders_inside _ _ _ _ Hre3 (λ v, sel arr1 l ≤ v ≤ sel arr1 r)); [|done].
    intros k' Hk'. rewrite (reorders_outside _ _ _ _ Hre2) by lia. apply HM. lia. }
  assert (∀ k, r + 1 ≤ k ≤ high → sel arr1 r < sel arr4 k) as HR4.
  { intros k Hk.
    apply (reorders_inside _ _ _ _ Hre4 (λ v, sel arr1 r < v)); [|done].
    intros k' Hk'.
    rewrite (reorders_outside _ _ _ _ Hre3), (reorders_outside _ _ _ _ Hre2) by lia.
    apply HR. lia. }
  assert (sorted_range low (l - 1) arr4) as Hs2'.
  { apply (sorted_range_outside _ _ _ _ _ _ Hre4); [lia|].
    apply (sorted_range_outside _ _ _ _ _ _ Hre3); [lia|]. done. }
  assert (sorted_range (l + 1) (r - 1) arr4) as Hs3'.
  { apply (sorted_range_outside _ _ _ _ _ _ Hre4); [lia|]. done. }
  intros i j Hi Hij Hj.
  pose proof (HL4 i) as HLi. pose proof (HM4 i) as HMi. pose proof (HR4 i) as HRi.
  pose proof (HL4 j) as HLj. pose proof (HM4 j) as HMj. pose proof (HR4 j) as HRj.
  assert (i = l → sel arr4 i = sel arr1 l) as Hil by (by intros ->).
  assert (i = r → sel arr4 i = sel arr1 r) as Hir by (by intros ->).
  assert (j = l → sel arr4 j = sel arr1 l) as Hjl by (by intros ->).
  assert (j = r → sel arr4 j = sel arr1 r) as Hjr by (by intros ->).
  destruct (decide (j ≤ l - 1)); [apply Hs2'; lia|].
  destruct (decide (l + 1 ≤ i ∧ j ≤ r - 1)); [apply Hs3'; lia|].
  destruct (decide (r + 1 ≤ i)); [apply Hs4; lia|].
  lia.
Qed.

(** [dualPivotQuickSort(arr, 0, n - 1)] returns, and leaves a sorted
    permutation of the buffer behind. *)
Lemma dualPivotQuickSort_sorts (arr : list Z) :
  ∃ arr', dualPivotQuickSort arr 0 (Z.of_nat (length arr) - 1) = Some arr' ∧
          arr' ≡ₚ arr ∧
          sorted_range 0 (Z.of_nat (length arr) - 1) arr'.
Proof.
  destruct (dualPivotQuickSort_rec_spec
              (Z.to_nat (Z.of_nat (length arr) - 1 - 0)) arr 0
              (Z.of_nat (length arr) - 1)) as (arr' & Hrun & Hre & Hs);
    [lia|lia|].
  exists arr'. split; [done|]. split; [apply (reorders_perm _ _ _ _ Hre)|done].
Qed.

(** ** The sortedness check *)

Lemma checkForSort_loop_spec (arr : list Z) n : ∀ fuel i,
  n = Z.of_nat (length arr) → 1 ≤ i → (Z.to_nat (n - i) ≤ fuel)%nat →
  (∀ k, 1 ≤ k < i → sel arr (k - 1) ≤ sel arr k) →
  ∃ b, checkForSort_loop fuel arr n i = Some b ∧
       (b = true ↔ no_descent arr n).
Proof.
  induction fuel as [|fuel IH]; intros i Hn Hi Hfuel Hpre; simpl.
  - replace (i <? n) with false by lia. exists true. split; [done|].
    split; [|done]. intros _ k Hk. apply Hpre. lia.
  - destruct (Z.ltb_spec i n) as [Hlt|Hge].
    + rewrite !load_in_range by lia. simpl.
      destruct (Z.ltb_spec (sel arr i) (sel arr (i - 1))) as [Hdesc|Hasc].
      * exists false. split; [done|]. split; [done|].
        intros Hall. specialize (Hall i ltac:(lia)). lia.
      * apply IH; [done|lia|lia|]. intros k Hk.
        destruct (decide (k = i)) as [->|]; [done|]. apply Hpre. lia.
    + exists true. split; [done|]. split; [|done]. intros _ k Hk. apply Hpre. lia.
Qed.

Lemma no_descent_sorted_range (arr : list Z) n :
  no_descent arr n ↔ sorted_range 0 (n - 1) arr.
Proof.
  split.
  - intros Hnd i j Hi Hij Hj.
    replace j with (i + Z.of_nat (Z.to_nat (j - i))) by lia.
    assert (i + Z.of_nat (Z.to_nat (j - i)) ≤ n - 1) as Hbound by lia.
    induction (Z.to_nat (j - i)) as [|d IHd].
    + by rewrite Z.add_0_r.
    + etrans; [apply IHd; lia|].
      specialize (Hnd (i + Z.of_nat (S d)) ltac:(lia)).
      by replace (i + Z.of_nat (S d) - 1) with (i + Z.of_nat d) in Hnd by lia.
  - intros Hs k Hk. apply Hs; lia.
Qed.

Lemma checkForSort_spec (arr : list Z) :
  ∃ b, checkForSort arr (Z.of_nat (length arr)) = Some b ∧
       (b = true ↔ sorted_range 0 (Z.of_nat (length arr) - 1) arr).
Proof.
  destruct (checkForSort_loop_spec arr (Z.of_nat (length arr))
              (Z.to_nat (Z.of_nat (length arr))) 1) as (b & Hrun & Hb);
    [done|lia|lia|intros; lia|].
  exists b. split; [done|]. by rewrite Hb, no_descent_sorted_range.
Qed.

(** A buffer whose whole range is ascending is a sorted list. *)
Lemma sorted_range_StronglySorted (arr : list Z) :
  sorted_range 0 (Z.of_nat (length arr) - 1) arr → StronglySorted Z.le arr.
Proof.
  induction arr as [|x t IH]; intros Hs; constructor.
  - apply IH. intros i j Hi Hij Hj.
    specialize (Hs (i + 1) (j + 1) ltac:(lia) ltac:(lia) ltac:(simpl in *; lia)).
    rewrite !sel_nonneg in * by lia.
    by replace (Z.to_nat (i + 1)) with (S (Z.to_nat i)) in Hs by lia;
       replace (Z.to_nat (j + 1)) with (S (Z.to_nat j)) in Hs by lia.
  - apply Forall_lookup. intros m y Hy.
    apply lookup_lt_Some in Hy as Hm.
    specialize (Hs 0 (Z.of_nat (S m)) ltac:(lia) ltac:(lia) ltac:(simpl in *; lia)).
    pose proof (sel_lookup (x :: t) 0 x eq_refl) as Hx.
    change (Z.of_nat 0) with 0 in Hx.
    by rewrite (sel_lookup (x :: t) (S m) y Hy), Hx in Hs.
Qed.

(** C3: on a buffer [A] of length [n] both [checkForSort(A, n)] and
    [dualPivotQuickSort(copy, 0, n - 1)] return, and the check answers true
    exactly when the sorted copy is cell by cell the buffer [A] itself.
    (Buffers are values here, so the copy of [A] is the list [A].) *)
Theorem isSorted_iff_sort_is_identity (A : list Z) :
  ∃ b sorted,
    checkForSort A (Z.of_nat (length A)) = Some b ∧
    dualPivotQuickSort A 0 (Z.of_nat (length A) - 1) = Some sorted ∧
    (b = true ↔ sorted = A).
Proof.
  destruct (checkForSort_spec A) as (b & Hcheck & Hb).
  destruct (dualPivotQuickSort_sorts A) as (sorted & Hsort & Hperm & Hs).
  exists b, sorted. split; [done|]. split; [done|].
  rewrite Hb. split.
  - intros HA. apply (StronglySorted_unique Z.le); [| |done].
    + apply sorted_range_StronglySorted.
      by rewrite (Permutation_length Hperm).
    + by apply sorted_range_StronglySorted.
  - by intros <-.
Qed.

(** * Further properties of the operations *)

(** ** Cells of prefixes and suffixes *)

Lemma sel_drop (arr : list Z) (m : nat) k :
  0 ≤ k → sel (drop m arr) k = sel arr (k + Z.of_nat m).
Proof.
  intros Hk. rewrite !sel_nonneg by lia. rewrite lookup_drop.
  do 2 f_equal. lia.
Qed.

Lemma sel_take (arr : list Z) (m : nat) k :
  0 ≤ k < Z.of_nat m → sel (take m arr) k = sel arr k.
Proof.
  intros Hk. rewrite !sel_nonneg by lia. by rewrite lookup_take_lt by lia.
Qed.

Lemma elem_of_sel (arr : list Z) x :
  x ∈ arr ↔ ∃ k, 0 ≤ k < Z.of_nat (length arr) ∧ sel arr k = x.
Proof.
  rewrite list_elem_of_lookup. split.
  - intros [i Hi]. exists (Z.of_nat i). apply lookup_lt_Some in Hi as Hlt.
    split; [lia|]. by apply sel_lookup.
  - intros (k & Hk & <-). exists (Z.to_nat k).
    rewrite (lookup_sel arr (Z.to_nat k)) by lia. by rewrite Z2Nat.id by lia.
Qed.

(** ** More on rotation *)

Lemma length_iter_rotate_left1 (l : list Z) m :
  length (Nat.iter m rotate_left1 l) = length l.
Proof.
  induction m as [|m IH]; simpl; [done|]. by rewrite length_rotate_left1.
Qed.

Lemma iter_rotate_left1_full (l : list Z) :
  Nat.iter (length l) rotate_left1 l = l.
Proof.
  rewrite iter_rotate_left1 by lia.
  rewrite drop_all, firstn_all. done.
Qed.

Lemma iter_rotate_left1_turns (l : list Z) (q r : nat) :
  Nat.iter (r + q * length l) rotate_left1 l = Nat.iter r rotate_left1 l.
Proof.
  induction q as [|q IH]; simpl.
  - by rewrite Nat.add_0_r.
  - replace (r + (length l + q * length l))%nat
      with ((r + q * length l) + length l)%nat by lia.
    rewrite Nat.iter_add, iter_rotate_left1_full. done.
Qed.

Lemma rotate_iter (arr : list Z) (n k : Z) :
  n = Z.of_nat (length arr) → 0 < n → 0 ≤ k →
  rotate arr n k = Some (Nat.iter (Z.to_nat (k mod n)) rotate_left1 arr).
Proof.
  intros Hn Hpos Hk. unfold rotate. rewrite decide_False by lia.
  rewrite Z.rem_mod_nonneg by lia.
  pose proof (Z.mod_pos_bound k n Hpos) as Hm.
  rewrite rotate_loop_spec by lia. by rewrite Z.sub_0_r.
Qed.

(** X1: on a buffer of [n ≥ 1] cells and for [k ≥ 0], [rotate] returns with
    the same number of cells, and cell [i] then holds what cell
    [(i + k) mod n] held before: the contents move towards index 0. *)
Theorem rotate_cell_from_the_right (arr : list Z) (n k : Z) :
  n = Z.of_nat (length arr) → 0 < n → 0 ≤ k →
  ∃ arr', rotate arr n k = Some arr' ∧
          length arr' = length arr ∧
          ∀ i, 0 ≤ i < n → sel arr' i = sel arr ((i + k) mod n).
Proof.
  intros Hn Hpos Hk. rewrite rotate_moves_left by done.
  pose proof (Z.mod_pos_bound k n Hpos) as Hm.
  eexists. split; [done|]. split.
  - rewrite length_app, length_drop, length_take. lia.
  - intros i Hi. rewrite sel_app by lia. rewrite length_drop.
    rewrite <- Zplus_mod_idemp_r.
    case_decide as Hcase.
    + rewrite sel_drop by lia.
      rewrite (Z.mod_small (i + k mod n)) by lia. f_equal. lia.
    + rewrite sel_take by lia. f_equal.
      apply (Z.mod_unique _ _ 1); lia.
Qed.

Lemma rotate_cell_from_the_right_witness :
  ∃ arr', rotate [10; 20; 30] 3 4 = Some arr' ∧
          length arr' = length [10; 20; 30] ∧
          ∀ i, 0 ≤ i < 3 → sel arr' i = sel [10; 20; 30] ((i + 4) mod 3).
Proof. apply (rotate_cell_from_the_right [10; 20; 30] 3 4); [reflexivity|lia|lia]. Defined.

(** X2: for a non-zero [n], a [k] that is zero or negative leaves the buffer
    as it is, unless the call is [INT_MIN % -1] (undefined in C): the
    remainder [k % n] is then not positive and the loop body never runs. *)
Theorem rotate_nonpositive_is_noop (arr : list Z) (n k : Z) :
  n ≠ 0 → k ≤ 0 → ¬ (k = INT_MIN ∧ n = -1) → rotate arr n k = Some arr.
Proof.
  intros Hn Hk Hdef. unfold rotate.
  rewrite decide_False by (intros [?|?]; done).
  pose proof (Z.rem_nonpos k n Hn Hk) as Hrem.
  destruct (Z.to_nat (Z.rem k n)); simpl;
    by replace (0 <? Z.rem k n) with false by lia.
Qed.

Lemma rotate_nonpositive_is_noop_witness :
  3 ≠ 0 ∧ -1 ≤ 0 ∧ ¬ (-1 = INT_MIN ∧ 3 = -1) ∧
  rotate [1; 2; 3] 3 (-1) = Some [1; 2; 3].
Proof.
  split; [lia|]. split; [lia|]. split; [lia|].
  apply (rotate_nonpositive_is_noop [1; 2; 3] 3 (-1)); lia.
Defined.

(** The excluded call: [INT_MIN % -1] does not return. *)
Example rotate_int_min_minus_one (arr : list Z) : rotate arr (-1) INT_MIN = None.
Proof. unfold rotate. by rewrite decide_True by (right; done). Qed.

(** X3: rotating by [a] and then by [b] leaves the buffer as one rotation
    by [a + b] does. *)
Theorem rotate_rotate (arr : list Z) (n a b : Z) :
  n = Z.of_nat (length arr) → 0 < n → 0 ≤ a → 0 ≤ b →
  (arr1 ← rotate arr n a; rotate arr1 n b) = rotate arr n (a + b).
Proof.
  intros Hn Hpos Ha Hb.
  rewrite (rotate_iter arr n a), (rotate_iter arr n (a + b)) by lia. simpl.
  rewrite rotate_iter by (rewrite ?length_iter_rotate_left1; lia).
  rewrite <- Nat.iter_add. f_equal.
  pose proof (Z.mod_pos_bound a n Hpos) as Hma.
  pose proof (Z.mod_pos_bound b n Hpos) as Hmb.
  pose proof (Z.mod_pos_bound (a + b) n Hpos) as Hmab.
  assert (∃ q : nat, (Z.to_nat (b mod n) + Z.to_nat (a mod n))%nat
                     = (Z.to_nat ((a + b) mod n) + q * length arr)%nat) as [q ->].
  { pose proof (Z.add_mod a b n ltac:(lia)) as Hadd.
    destruct (decide (a mod n + b mod n < n)) as [Hsmall|Hbig].
    - exists 0%nat. rewrite (Z.mod_small (a mod n + b mod n)) in Hadd by lia. lia.
    - exists 1%nat.
      rewrite <- (Z.mod_unique (a mod n + b mod n) n 1 (a mod n + b mod n - n)) in Hadd
        by lia.
      lia. }
  apply iter_rotate_left1_turns.
Qed.

Lemma rotate_rotate_witness :
  (arr1 ← rotate [1; 2; 3; 4; 5] 5 3; rotate arr1 5 4) = rotate [1; 2; 3; 4; 5] 5 (3 + 4).
Proof. apply (rotate_rotate [1; 2; 3; 4; 5] 5 3 4); [reflexivity|lia..]. Defined.

(** ** More on binary search *)

Lemma searchBIN_loop_sound (arr : list Z) (sr : Z) : ∀ fuel start end_ mid index,
  0 ≤ start → end_ ≤ Z.of_nat (length arr) → end_ ≤ 2 ^ 30 →
  (Z.to_nat (end_ - start) ≤ fuel)%nat →
  (index = -1 ∨ (0 ≤ index < Z.of_nat (length arr) ∧ sel arr index = sr)) →
  ∃ r, searchBIN_loop fuel arr sr start end_ mid index = Some r ∧
       (r = -1 ∨ (0 ≤ r < Z.of_nat (length arr) ∧ sel arr r = sr)).
Proof.
  induction fuel as [|fuel IH];
    intros start end_ mid index Hs He Hint Hfuel Hidx; simpl.
  - replace (start <? end_) with false by lia. simpl. eauto.
  - destruct (Z.ltb_spec start end_) as [Hlt|Hge]; simpl; [|eauto].
    destruct (Z.eqb_spec index mid) as [Heq|Hne]; simpl; [eauto|].
    rewrite int_add_in_range by (unfold INT_MIN, INT_MAX; lia). simpl.
    rewrite Z.quot_div_nonneg by lia.
    pose proof (Z.div_mod (start + end_) 2 ltac:(lia)) as Hdiv.
    pose proof (Z.mod_pos_bound (start + end_) 2 ltac:(lia)) as Hmod.
    rewrite load_in_range by lia. simpl.
    destruct (Z.eqb_spec (sel arr ((start + end_) / 2)) sr) as [Hfound|Hmiss].
    + (* found: the next test sees [index == mid] and leaves the loop *)
      exists ((start + end_) / 2). split; [|right; split; [lia|done]].
      destruct fuel; simpl; rewrite Z.eqb_refl; simpl; by rewrite andb_false_r.
    + destruct (_ <? sr); apply IH; auto; lia.
Qed.

(** X4: on any buffer of [n <= 2^30] cells (so that the midpoint sum
    [start + end] stays an [int]), sorted or not, and whatever the
    uninitialised [mid] holds, [searchBIN] stays inside the buffer, returns,
    and its answer is either -1 or an index whose cell holds the value. *)
Theorem searchBIN_returns_minus_one_or_hit (mid0 : Z) (arr : list Z) (sr : Z) :
  Z.of_nat (length arr) ≤ 2 ^ 30 →
  ∃ r, searchBIN mid0 arr (Z.of_nat (length arr)) sr = Some r ∧
       (r = -1 ∨ (0 ≤ r < Z.of_nat (length arr) ∧ sel arr r = sr)).
Proof.
  intros Hint. unfold searchBIN.
  apply searchBIN_loop_sound; [lia|lia|lia|lia|by left].
Qed.

Lemma searchBIN_returns_minus_one_or_hit_witness :
  Z.of_nat (length [1; 3; 5; 7]) ≤ 2 ^ 30 ∧
  ∃ r, searchBIN 0 [1; 3; 5; 7] (Z.of_nat (length [1; 3; 5; 7])) 5 = Some r ∧
       (r = -1 ∨ (0 ≤ r < Z.of_nat (length [1; 3; 5; 7]) ∧ sel [1; 3; 5; 7] r = 5)).
Proof.
  split; [simpl; lia|].
  apply (searchBIN_returns_minus_one_or_hit 0 [1; 3; 5; 7] 5). simpl. lia.
Defined.

(** X5: on a buffer of at most [2^30] cells, a value that no cell holds is
    reported as -1. *)
Theorem searchBIN_absent (mid0 : Z) (arr : list Z) (sr : Z) :
  Z.of_nat (length arr) ≤ 2 ^ 30 →
  sr ∉ arr → searchBIN mid0 arr (Z.of_nat (length arr)) sr = Some (-1).
Proof.
  intros Hint Habsent.
  destruct (searchBIN_loop_sound arr sr (S (Z.to_nat (Z.of_nat (length arr))))
              0 (Z.of_nat (length arr)) mid0 (-1))
    as (r & Hrun & [->|[Hr Hsel]]); [lia|lia|lia|lia|by left|done|].
  exfalso. apply Habsent, elem_of_sel. eauto.
Qed.

Lemma searchBIN_absent_witness :
  Z.of_nat (length [1; 3; 5; 7]) ≤ 2 ^ 30 ∧ (4 ∉ [1; 3; 5; 7]) ∧
  searchBIN 0 [1; 3; 5; 7] (Z.of_nat (length [1; 3; 5; 7])) 4 = Some (-1).
Proof.
  assert (4 ∉ [1; 3; 5; 7]) as Habsent.
  { intros Hin. apply list_elem_of_In in Hin. simpl in Hin.
    repeat destruct Hin as [Hin|Hin]; try discriminate Hin; done. }
  split; [simpl; lia|]. split; [exact Habsent|].
  apply (searchBIN_absent 0 [1; 3; 5; 7] 4); [simpl; lia|exact Habsent].
Defined.

(** Past that size the midpoint sum leaves the range of [int]: with
    [start = 2^30] and [end = 2^30 + 1] the loop does not return. *)
Example searchBIN_loop_sum_overflow (fuel : nat) (arr : list Z) (sr mid : Z) :
  mid ≠ -1 →
  searchBIN_loop (S fuel) arr sr (2 ^ 30) (2 ^ 30 + 1) mid (-1) = None.
Proof.
  intros Hmid. cbn [searchBIN_loop].
  replace (2 ^ 30 <? 2 ^ 30 + 1) with true by lia.
  replace (-1 =? mid) with false by lia. cbn [andb negb].
  by rewrite int_add_overflow by (unfold INT_MAX; lia).
Qed.

(** ** More on reversal and swaps *)

(** X6: [reverse] keeps the number of cells, and afterwards cell [k] holds
    what cell [n - 1 - k] held before. *)
Theorem reverse_mirrors (A : list Z) :
  ∃ A', reverse A (Z.of_nat (length A)) = Some A' ∧
        length A' = length A ∧
        ∀ k, 0 ≤ k < Z.of_nat (length A) →
             sel A' k = sel A (Z.of_nat (length A) - 1 - k).
Proof.
  exists (rev A). split; [apply reverse_is_rev|]. split; [apply length_rev|].
  intros k Hk. by apply sel_rev.
Qed.

(** X7: a successful [swapNumbers] is undone by the same call: swapping the
    same two cells again restores the buffer. *)
Theorem swapNumbers_twice (arr arr' : list Z) (i j : Z) :
  swapNumbers arr i j = Some arr' → swapNumbers arr' i j = Some arr.
Proof.
  intros Hswap.
  assert (0 ≤ i < Z.of_nat (length arr) ∧ 0 ≤ j < Z.of_nat (length arr))
    as [Hi Hj].
  { unfold swapNumbers in Hswap.
    destruct (load arr i) as [x|] eqn:Hx; simpl in Hswap; [|done].
    destruct (load arr j) as [y|] eqn:Hy; simpl in Hswap; [|done].
    apply load_Some in Hx as [? _]. apply load_Some in Hy as [? _]. done. }
  rewrite swapNumbers_in_range in Hswap by done. injection Hswap as <-.
  rewrite swapNumbers_in_range by (rewrite length_swapped; done).
  f_equal. apply sel_ext.
  - by rewrite !length_swapped.
  - intros k Hk. rewrite sel_swapped by (rewrite length_swapped; done).
    rewrite !sel_swapped by done. repeat case_decide; congruence.
Qed.

Lemma swapNumbers_twice_witness :
  swapNumbers [4; 5; 6] 0 2 = Some [6; 5; 4] ∧ swapNumbers [6; 5; 4] 0 2 = Some [4; 5; 6].
Proof.
  split; [reflexivity|].
  apply (swapNumbers_twice [4; 5; 6] [6; 5; 4] 0 2). reflexivity.
Defined.

(** ** More on the occurrence count *)

Lemma MAX_count_loop_first_is_max (arr : list Z) (m : Z) : ∀ fuel (i : nat) count,
  (length arr ≤ i + fuel)%nat →
  (∀ y, y ∈ drop i arr → y ≤ m) →
  MAX_count_loop fuel arr (Z.of_nat (length arr)) m (Z.of_nat i) count
  = Some (count + Z.of_nat (count_occ Z.eq_dec (drop i arr) m)).
Proof.
  induction fuel as [|fuel IH]; intros i count Hfuel Hle; simpl.
  - replace (_ <? _) with false by lia. rewrite drop_ge by lia. simpl.
    by rewrite Z.add_0_r.
  - destruct (Z.ltb_spec (Z.of_nat i) (Z.of_nat (length arr))) as [Hlt|Hge].
    + rewrite load_in_range by lia. simpl.
      rewrite (drop_S arr (sel arr (Z.of_nat i)) i) in * by (apply lookup_sel; lia).
      assert (sel arr (Z.of_nat i) ≤ m) as Hx by (apply Hle; left).
      replace (sel arr (Z.of_nat i) >? m) with false by lia.
      replace (Z.of_nat i + 1) with (Z.of_nat (S i)) by lia.
      destruct (Z.eqb_spec (sel arr (Z.of_nat i)) m) as [Heq|Hne].
      * rewrite IH by (try lia; intros y Hy; apply Hle; by right).
        rewrite count_occ_cons_eq by done. f_equal. lia.
      * rewrite IH by (try lia; intros y Hy; apply Hle; by right).
        rewrite count_occ_cons_neq by done. done.
    + rewrite drop_ge by lia. simpl. by rewrite Z.add_0_r.
Qed.

(** X8: when the first cell already holds the maximum, [MAX_count] returns
    the number of cells holding the maximum minus one: the first cell itself
    is not counted. *)
Theorem MAX_count_first_is_max (x : Z) (t : list Z) :
  (∀ y, y ∈ t → y ≤ x) →
  MAX_count (x :: t) (Z.of_nat (length (x :: t)))
  = Some (Z.of_nat (count_occ Z.eq_dec (x :: t) x) - 1).
Proof.
  intros Hmax. unfold MAX_count.
  change (load (x :: t) 0) with (Some x). simpl mbind.
  rewrite Nat2Z.id.
  pose proof (MAX_count_loop_first_is_max (x :: t) x (length (x :: t)) 1 0) as Hloop.
  change (Z.of_nat 1) with 1 in Hloop.
  change (length (x :: t)) with (S (length t)) in Hloop.
  change (drop 1 (x :: t)) with t in Hloop.
  rewrite Hloop by (try lia; done).
  rewrite count_occ_cons_eq by done. f_equal. lia.
Qed.

Lemma MAX_count_first_is_max_witness :
  MAX_count [7; 7; 2; 7] (Z.of_nat (length [7; 7; 2; 7]))
  = Some (Z.of_nat (count_occ Z.eq_dec [7; 7; 2; 7] 7) - 1).
Proof.
  apply (MAX_count_first_is_max 7 [7; 2; 7]).
  intros y Hy. apply list_elem_of_In in Hy. simpl in Hy.
  repeat destruct Hy as [Hy|Hy]; try (rewrite <- Hy; lia); done.
Defined.

Lemma MAX_count_loop_bound (arr : list Z) (m : Z) : ∀ fuel i count,
  1 ≤ i → (Z.to_nat (Z.of_nat (length arr) - i) ≤ fuel)%nat →
  0 ≤ count ≤ i - 1 →
  ∃ c, MAX_count_loop fuel arr (Z.of_nat (length arr)) m i count = Some c ∧
       0 ≤ c ≤ Z.max (i - 1) (Z.of_nat (length arr) - 1).
Proof.
  induction fuel as [|fuel IH]; intros i count Hi Hfuel Hcount; simpl.
  - replace (_ <? _) with false by lia. exists count. split; [done|lia].
  - destruct (Z.ltb_spec i (Z.of_nat (length arr))) as [Hlt|Hge].
    + rewrite load_in_range by lia. simpl.
      destruct (_ >? m); [|destruct (_ =? m)].
      * destruct (IH (i + 1) 1) as (c & Hc & Hb); [lia|lia|lia|].
        exists c. split; [done|lia].
      * destruct (IH (i + 1) (count + 1)) as (c & Hc & Hb); [lia|lia|lia|].
        exists c. split; [done|lia].
      * destruct (IH (i + 1) count) as (c & Hc & Hb); [lia|lia|lia|].
        exists c. split; [done|lia].
    + exists count. split; [done|lia].
Qed.

(** X9: on a non-empty buffer of [n] cells the count [MAX_count] returns is
    at least 0 and at most [n - 1]: it can never be the number of cells,
    not even when all cells are equal. *)
Theorem MAX_count_below_length (arr : list Z) :
  arr ≠ [] →
  ∃ c, MAX_count arr (Z.of_nat (length arr)) = Some c ∧
       0 ≤ c < Z.of_nat (length arr).
Proof.
  intros Hne. unfold MAX_count.
  destruct arr as [|x t]; [done|].
  change (load (x :: t) 0) with (Some x). simpl mbind.
  destruct (MAX_count_loop_bound (x :: t) x
              (Z.to_nat (Z.of_nat (length (x :: t)))) 1 0) as (c & Hc & Hb);
    [lia|lia|lia|].
  exists c. split; [done|]. simpl length in *. lia.
Qed.

Lemma MAX_count_below_length_witness :
  ∃ c, MAX_count [3; 3; 3] (Z.of_nat (length [3; 3; 3])) = Some c ∧
       0 ≤ c < Z.of_nat (length [3; 3; 3]).
Proof. apply (MAX_count_below_length [3; 3; 3]). discriminate. Defined.

(** ** Extrema *)

Section Extrema.
Variable arr : list Z.
Local Abbreviation n := (Z.of_nat (length arr)).

Lemma getmaxOf_loop_spec : ∀ fuel i m,
  1 ≤ i ≤ n → (Z.to_nat (n - i) ≤ fuel)%nat →
  (∃ k, 0 ≤ k < i ∧ sel arr k = m) → (∀ k, 0 ≤ k < i → sel arr k ≤ m) →
  ∃ r, getmaxOf_loop fuel arr n i m = Some r ∧
       (∃ k, 0 ≤ k < n ∧ sel arr k = r) ∧ ∀ k, 0 ≤ k < n → sel arr k ≤ r.
Proof.
  induction fuel as [|fuel IH]; intros i m Hi Hfuel (k0 & Hk0 & Hm) Hub; simpl.
  - replace (i <? n) with false by lia.
    exists m. split; [done|]. split; [exists k0; split; [lia|done]|].
    intros k Hk. apply Hub. lia.
  - destruct (Z.ltb_spec i n) as [Hlt|Hge].
    + rewrite load_in_range by lia. simpl. rewrite Z.gtb_ltb.
      destruct (Z.ltb_spec m (sel arr i)) as [Hnew|Hold]; apply IH; try lia.
      * exists i. split; [lia|done].
      * intros k Hk. destruct (decide (k = i)) as [->|]; [lia|].
        specialize (Hub k ltac:(lia)). lia.
      * exists k0. split; [lia|done].
      * intros k Hk. destruct (decide (k = i)) as [->|]; [lia|].
        apply Hub. lia.
    + exists m. split; [done|]. split; [exists k0; split; [lia|done]|].
      intros k Hk. apply Hub. lia.
Qed.

Lemma getminOf_loop_spec : ∀ fuel i m,
  1 ≤ i ≤ n → (Z.to_nat (n - i) ≤ fuel)%nat →
  (∃ k, 0 ≤ k < i ∧ sel arr k = m) → (∀ k, 0 ≤ k < i → m ≤ sel arr k) →
  ∃ r, getminOf_loop fuel arr n i m = Some r ∧
       (∃ k, 0 ≤ k < n ∧ sel arr k = r) ∧ ∀ k, 0 ≤ k < n → r ≤ sel arr k.
Proof.
  induction fuel as [|fuel IH]; intros i m Hi Hfuel (k0 & Hk0 & Hm) Hlb; simpl.
  - replace (i <? n) with false by lia.
    exists m. split; [done|]. split; [exists k0; split; [lia|done]|].
    intros k Hk. apply Hlb. lia.
  - destruct (Z.ltb_spec i n) as [Hlt|Hge].
    + rewrite load_in_range by lia. simpl.
      destruct (Z.ltb_spec (sel arr i) m) as [Hnew|Hold]; apply IH; try lia.
      * exists i. split; [lia|done].
      * intros k Hk. destruct (decide (k = i)) as [->|]; [lia|].
        specialize (Hlb k ltac:(lia)). lia.
      * exists k0. split; [lia|done].
      * intros k Hk. destruct (decide (k = i)) as [->|]; [lia|].
        apply Hlb. lia.
    + exists m. split; [done|]. split; [exists k0; split; [lia|done]|].
      intros k Hk. apply Hlb. lia.
Qed.

Lemma getmaxOf_spec :
  arr ≠ [] →
  ∃ m, getmaxOf arr n = Some m ∧
       (∃ k, 0 ≤ k < n ∧ sel arr k = m) ∧ ∀ k, 0 ≤ k < n → sel arr k ≤ m.
Proof.
  intros Hne. assert (0 < n) by (destruct arr; [done|simpl; lia]).
  unfold getmaxOf. rewrite load_in_range by lia. simpl.
  apply getmaxOf_loop_spec; [lia|lia|exists 0; split; [lia|done]|].
  intros k Hk. replace k with 0 by lia. done.
Qed.

Lemma getminOf_spec :
  arr ≠ [] →
  ∃ m, getminOf arr n = Some m ∧
       (∃ k, 0 ≤ k < n ∧ sel arr k = m) ∧ ∀ k, 0 ≤ k < n → m ≤ sel arr k.
Proof.
  intros Hne. assert (0 < n) by (destruct arr; [done|simpl; lia]).
  unfold getminOf. rewrite load_in_range by lia. simpl.
  apply getminOf_loop_spec; [lia|lia|exists 0; split; [lia|done]|].
  intros k Hk. replace k with 0 by lia. done.
Qed.

End Extrema.

(** X10: on a non-empty buffer [getmaxOf] returns a value that some cell
    holds and that no cell exceeds. *)
Theorem getmaxOf_is_maximum (arr : list Z) :
  arr ≠ [] →
  ∃ m, getmaxOf arr (Z.of_nat (length arr)) = Some m ∧
       m ∈ arr ∧ ∀ y, y ∈ arr → y ≤ m.
Proof.
  intros Hne. destruct (getmaxOf_spec arr Hne) as (m & Hrun & Hin & Hub).
  exists m. split; [done|]. split; [by apply elem_of_sel|].
  intros y (k & Hk & <-)%elem_of_sel. by apply Hub.
Qed.

Lemma getmaxOf_is_maximum_witness :
  ∃ m, getmaxOf [4; 9; 2] (Z.of_nat (length [4; 9; 2])) = Some m ∧
       m ∈ [4; 9; 2] ∧ ∀ y, y ∈ [4; 9; 2] → y ≤ m.
Proof. apply (getmaxOf_is_maximum [4; 9; 2]). discriminate. Defined.

(** X11: on a non-empty buffer [getminOf] returns a value that some cell
    holds and that no cell is below. *)
Theorem getminOf_is_minimum (arr : list Z) :
  arr ≠ [] →
  ∃ m, getminOf arr (Z.of_nat (length arr)) = Some m ∧
       m ∈ arr ∧ ∀ y, y ∈ arr → m ≤ y.
Proof.
  intros Hne. destruct (getminOf_spec arr Hne) as (m & Hrun & Hin & Hlb).
  exists m. split; [done|]. split; [by apply elem_of_sel|].
  intros y (k & Hk & <-)%elem_of_sel. by apply Hlb.
Qed.

Lemma getminOf_is_minimum_witness :
  ∃ m, getminOf [4; 9; 2] (Z.of_nat (length [4; 9; 2])) = Some m ∧
       m ∈ [4; 9; 2] ∧ ∀ y, y ∈ [4; 9; 2] → m ≤ y.
Proof. apply (getminOf_is_minimum [4; 9; 2]). discriminate. Defined.

(** X12: after [dualPivotQuickSort] has sorted a non-empty buffer, its first
    cell is what [getminOf] returns on the original buffer and its last cell
    what [getmaxOf] returns. *)
Theorem sorted_ends_are_extrema (arr : list Z) :
  arr ≠ [] →
  ∃ sorted lo hi,
    dualPivotQuickSort arr 0 (Z.of_nat (length arr) - 1) = Some sorted ∧
    getminOf arr (Z.of_nat (length arr)) = Some lo ∧
    getmaxOf arr (Z.of_nat (length arr)) = Some hi ∧
    sel sorted 0 = lo ∧ sel sorted (Z.of_nat (length arr) - 1) = hi.
Proof.
  intros Hne.
  destruct (dualPivotQuickSort_sorts arr) as (sorted & Hsort & Hperm & Hs).
  destruct (getminOf_spec arr Hne) as (lo & Hmin & Hlo_in & Hlo).
  destruct (getmaxOf_spec arr Hne) as (hi & Hmax & Hhi_in & Hhi).
  exists sorted, lo, hi. do 3 (split; [done|]).
  assert (0 < Z.of_nat (length arr)) by (destruct arr; [done|simpl; lia]).
  pose proof (Permutation_length Hperm) as Hlen.
  assert (∀ k, 0 ≤ k < Z.of_nat (length arr) →
            ∃ k', 0 ≤ k' < Z.of_nat (length arr) ∧ sel arr k' = sel sorted k)
    as Hfrom.
  { intros k Hk. apply elem_of_sel. rewrite <- Hperm. apply elem_of_sel.
    exists k. split; [lia|done]. }
  assert (∀ k, 0 ≤ k < Z.of_nat (length arr) →
            ∃ k', 0 ≤ k' < Z.of_nat (length arr) ∧ sel sorted k' = sel arr k)
    as Hto.
  { intros k Hk.
    assert (sel arr k ∈ sorted) as Hin
      by (rewrite Hperm; apply elem_of_sel; exists k; split; [lia|done]).
    apply elem_of_sel in Hin as (k' & Hk' & Heq). exists k'. split; [lia|done]. }
  split.
  - destruct (Hfrom 0 ltac:(lia)) as (k1 & Hk1 & Heq1).
    destruct Hlo_in as (k2 & Hk2 & <-).
    destruct (Hto k2 Hk2) as (k3 & Hk3 & Heq3).
    pose proof (Hlo k1 Hk1). pose proof (Hs 0 k3 ltac:(lia) ltac:(lia) ltac:(lia)).
    lia.
  - destruct (Hfrom (Z.of_nat (length arr) - 1) ltac:(lia)) as (k1 & Hk1 & Heq1).
    destruct Hhi_in as (k2 & Hk2 & <-).
    destruct (Hto k2 Hk2) as (k3 & Hk3 & Heq3).
    pose proof (Hhi k1 Hk1).
    pose proof (Hs k3 (Z.of_nat (length arr) - 1) ltac:(lia) ltac:(lia) ltac:(lia)).
    lia.
Qed.

Lemma sorted_ends_are_extrema_witness :
  ∃ sorted lo hi,
    dualPivotQuickSort [4; 9; 2] 0 (Z.of_nat (length [4; 9; 2]) - 1) = Some sorted ∧
    getminOf [4; 9; 2] (Z.of_nat (length [4; 9; 2])) = Some lo ∧
    getmaxOf [4; 9; 2] (Z.of_nat (length [4; 9; 2])) = Some hi ∧
    sel sorted 0 = lo ∧ sel sorted (Z.of_nat (length [4; 9; 2]) - 1) = hi.
Proof. apply (sorted_ends_are_extrema [4; 9; 2]). discriminate. Defined.

(** ** Comparison of two buffers *)

Lemma compareTwoArray_loop_spec (arr1 arr2 : list Z) : ∀ fuel it,
  length arr1 = length arr2 → 0 ≤ it ≤ Z.of_nat (length arr1) →
  (Z.to_nat (Z.of_nat (length arr1) - it) ≤ fuel)%nat →
  (∀ k, 0 ≤ k < it → sel arr1 k = sel arr2 k) →
  ∃ r, compareTwoArray_loop fuel arr1 (Z.of_nat (length arr1))
                            arr2 (Z.of_nat (length arr2)) it = Some r ∧
       ((r = Z.of_nat (length arr1) ∧ arr1 = arr2) ∨
        (0 ≤ r < Z.of_nat (length arr1) ∧ sel arr1 r ≠ sel arr2 r)).
Proof.
  induction fuel as [|fuel IH]; intros it Hlen Hit Hfuel Hsame;
    cbn [compareTwoArray_loop]; rewrite <- Hlen.
  - replace (it <? _) with false by lia. simpl.
    exists it. split; [done|]. left. split; [lia|].
    apply sel_ext; [done|]. intros k Hk. apply Hsame. lia.
  - destruct (Z.ltb_spec it (Z.of_nat (length arr1))) as [Hlt|Hge]; simpl.
    + rewrite !load_in_range by lia. simpl.
      destruct (Z.eqb_spec (sel arr1 it) (sel arr2 it)) as [Heq|Hne].
      * destruct (IH (it + 1)) as (r & Hr & Hres); [done|lia|lia|..].
        { intros k Hk. destruct (decide (k = it)) as [->|]; [done|].
          apply Hsame. lia. }
        rewrite <- Hlen in Hr. exists r. by split.
      * exists it. split; [done|]. right. split; [lia|done].
    + exists it. split; [done|]. left. split; [lia|].
      apply sel_ext; [done|]. intros k Hk. apply Hsame. lia.
Qed.

(** X13: called with the lengths of the two buffers, [compareTwoArray]
    returns true exactly when the buffers hold the same cells in the same
    order, and false otherwise (in particular when the lengths differ). *)
Theorem compareTwoArray_decides_equality (arr1 arr2 : list Z) :
  compareTwoArray arr1 (Z.of_nat (length arr1)) arr2 (Z.of_nat (length arr2))
  = Some (bool_decide (arr1 = arr2)).
Proof.
  unfold compareTwoArray.
  destruct (Z.eqb_spec (Z.of_nat (length arr1)) (Z.of_nat (length arr2)))
    as [Hlen|Hlen]; simpl.
  - destruct (compareTwoArray_loop_spec arr1 arr2
                (Z.to_nat (Z.of_nat (length arr1))) 0)
      as (r & -> & [[-> Heq]|[Hr Hne]]); [lia|lia|lia|intros; lia|..]; simpl.
    + rewrite Z.eqb_refl. by rewrite bool_decide_eq_true_2.
    + replace (r =? _) with false by lia.
      rewrite bool_decide_eq_false_2; [done|]. by intros ->.
  - rewrite bool_decide_eq_false_2; [done|]. intros ->. done.
Qed.

(** ** The search that reports every match *)

Lemma search_loop_spec (arr : list Z) (sr : Z) : ∀ fuel (i : nat) count out,
  (length arr ≤ i + fuel)%nat → (i ≤ length arr)%nat →
  search_loop fuel arr (Z.of_nat (length arr)) sr (Z.of_nat i) count out
  = Some (count + Z.of_nat (length (filter (λ k, sel arr k = sr)
                                           (seqZ (Z.of_nat i) (Z.of_nat (length arr - i))))),
          out ++ filter (λ k, sel arr k = sr)
                        (seqZ (Z.of_nat i) (Z.of_nat (length arr - i)))).
Proof.
  induction fuel as [|fuel IH]; intros i count out Hfuel Hi; simpl.
  - replace (_ <? _) with false by lia.
    rewrite seqZ_nil by lia. simpl. by rewrite Z.add_0_r, app_nil_r.
  - destruct (Z.ltb_spec (Z.of_nat i) (Z.of_nat (length arr))) as [Hlt|Hge].
    + rewrite load_in_range by lia. simpl.
      rewrite (seqZ_cons (Z.of_nat i)) by lia.
      replace (Z.succ (Z.of_nat i)) with (Z.of_nat (S i)) by lia.
      replace (Z.pred (Z.of_nat (length arr - i)))
        with (Z.of_nat (length arr - S i)) by lia.
      replace (Z.of_nat i + 1) with (Z.of_nat (S i)) by lia.
      destruct (Z.eqb_spec (sel arr (Z.of_nat i)) sr) as [Heq|Hne].
      * rewrite IH by lia. rewrite filter_cons_True by done.
        rewrite <- app_assoc. simpl. do 2 f_equal. lia.
      * rewrite IH by lia. rewrite filter_cons_False by done. done.
    + rewrite seqZ_nil by lia. simpl. by rewrite Z.add_0_r, app_nil_r.
Qed.

(** X14: [search] prints exactly the indices whose cell holds the value, each
    once and in ascending order, and returns how many it printed. *)
Theorem search_reports_matches (arr : list Z) (sr : Z) :
  search arr (Z.of_nat (length arr)) sr
  = Some (Z.of_nat (length (matching_indices arr (Z.of_nat (length arr)) sr)),
          matching_indices arr (Z.of_nat (length arr)) sr).
Proof.
  unfold search, matching_indices. rewrite Nat2Z.id.
  pose proof (search_loop_spec arr sr (length arr) 0 0 []) as Hloop.
  rewrite Nat.sub_0_r in Hloop. simpl in Hloop. apply Hloop; lia.
Qed.

(** X15: the count [search] returns is the number of occurrences of the
    value in the buffer. *)
Theorem search_counts_occurrences (arr : list Z) (sr : Z) :
  fst <$> search arr (Z.of_nat (length arr)) sr
  = Some (Z.of_nat (count_occ Z.eq_dec arr sr)).
Proof.
  unfold search. rewrite Nat2Z.id.
  assert (∀ (i : nat) count out, (i ≤ length arr)%nat →
            fst <$> search_loop (length arr - i) arr (Z.of_nat (length arr)) sr
                                (Z.of_nat i) count out
            = Some (count + Z.of_nat (count_occ Z.eq_dec (drop i arr) sr))) as Hgen.
  { intros i. remember (length arr - i)%nat as fuel eqn:Hfuel.
    revert i Hfuel. induction fuel as [|fuel IH]; intros i Hfuel count out Hi; simpl.
    - replace (_ <? _) with false by lia. rewrite drop_ge by lia. simpl.
      by rewrite Z.add_0_r.
    - replace (_ <? _) with true by lia.
      rewrite load_in_range by lia. simpl.
      rewrite (drop_S arr (sel arr (Z.of_nat i)) i) by (apply lookup_sel; lia).
      replace (Z.of_nat i + 1) with (Z.of_nat (S i)) by lia.
      destruct (Z.eqb_spec (sel arr (Z.of_nat i)) sr) as [Heq|Hne].
      + rewrite IH by lia. rewrite count_occ_cons_eq by done. f_equal. lia.
      + rewrite IH by lia. rewrite count_occ_cons_neq by done. done. }
  specialize (Hgen 0%nat 0 [] ltac:(lia)).
  rewrite Nat.sub_0_r in Hgen. change (Z.of_nat 0) with 0 in Hgen.
  by rewrite Hgen.
Qed.

Lemma filter_none (P : Z → Prop) `{∀ x, Decision (P x)} (l : list Z) :
  (∀ x, x ∈ l → ¬ P x) → filter P l = [].
Proof.
  induction l as [|x l IH]; intros Hnone; [done|].
  rewrite filter_cons_False by (apply Hnone; left).
  apply IH. intros y Hy. apply Hnone. by right.
Qed.

(** X16: [firstIndexOf] returns the first index that [search] prints, and -1
    when [search] prints nothing. *)
Theorem firstIndexOf_is_first_printed (arr : list Z) (sr : Z) :
  firstIndexOf arr (Z.of_nat (length arr)) sr
  = (λ res, default (-1) (head res.2)) <$> search arr (Z.of_nat (length arr)) sr.
Proof.
  unfold search, firstIndexOf. rewrite Nat2Z.id.
  pose proof (search_loop_spec arr sr (length arr) 0 0 []) as Hloop.
  rewrite Nat.sub_0_r in Hloop. change (Z.of_nat 0) with 0 in Hloop.
  rewrite Hloop by lia. simpl.
  destruct (firstIndexOf_loop_spec arr (Z.of_nat (length arr)) sr (length arr) 0)
    as (r & -> & [[-> Hnone]|(Hr & Hhit & Hfirst)]); [done|lia|lia|intros; lia|..];
    f_equal.
  - rewrite filter_none; [done|]. intros k Hk%elem_of_seqZ. apply Hnone. lia.
  - replace (Z.of_nat (length arr)) with (r + (Z.of_nat (length arr) - r)) by lia.
    rewrite seqZ_app, filter_app by lia.
    rewrite filter_none by (intros k Hk%elem_of_seqZ; apply Hfirst; lia).
    rewrite (seqZ_cons (0 + r)) by lia. rewrite Z.add_0_l.
    by rewrite filter_cons_True by done.
Qed.

(** ** More on the partition and the sort *)

Lemma sel_cons_0 (x : Z) (t : list Z) : sel (x :: t) 0 = x.
Proof. by rewrite sel_nonneg by lia. Qed.

Lemma sel_cons_S (x : Z) (t : list Z) k : 0 ≤ k → sel (x :: t) (k + 1) = sel t k.
Proof.
  intros Hk. rewrite !sel_nonneg by lia.
  by replace (Z.to_nat (k + 1)) with (S (Z.to_nat k)) by lia.
Qed.

Lemma StronglySorted_no_descent (arr : list Z) :
  StronglySorted Z.le arr → no_descent arr (Z.of_nat (length arr)).
Proof.
  induction 1 as [|x t Hs IH Hall]; intros k Hk; simpl in *; [lia|].
  destruct (decide (k = 1)) as [->|Hk1].
  - destruct t as [|y t']; simpl in *; [lia|].
    apply Forall_cons in Hall as [Hxy _].
    change (1 - 1) with 0. rewrite sel_cons_0.
    change 1 with (0 + 1). rewrite sel_cons_S by lia. by rewrite sel_cons_0.
  - specialize (IH (k - 1) ltac:(lia)).
    replace (k - 1) with (k - 1 - 1 + 1) at 1 by lia.
    replace k with (k - 1 + 1) at 2 by lia.
    by rewrite !sel_cons_S by lia.
Qed.

(** X17: on a range [low < high] inside the buffer, [pivotPartition] permutes
    the cells of the range only and reports two positions [left < right] in
    it such that every cell of the range before [left] is smaller than the
    cell at [left], every cell after [right] is larger than the cell at
    [right], and the cells in between lie between those two. *)
Theorem pivotPartition_splits_range (arr : list Z) (low high : Z) :
  0 ≤ low → low < high → high < Z.of_nat (length arr) →
  ∃ arr' Pivot,
    pivotPartition arr low high = Some (arr', Pivot) ∧
    arr' ≡ₚ arr ∧
    (∀ k, k < low ∨ high < k → sel arr' k = sel arr k) ∧
    low ≤ record.left Pivot ∧ record.left Pivot < record.right Pivot ∧
    record.right Pivot ≤ high ∧
    (∀ k, low ≤ k < record.left Pivot → sel arr' k < sel arr' (record.left Pivot)) ∧
    (∀ k, record.left Pivot < k < record.right Pivot →
          sel arr' (record.left Pivot) ≤ sel arr' k ≤ sel arr' (record.right Pivot)) ∧
    (∀ k, record.right Pivot < k ≤ high →
          sel arr' (record.right Pivot) < sel arr' k).
Proof.
  intros Hlow Hlt Hhigh.
  destruct (pivotPartition_spec arr low high Hlow Hlt Hhigh)
    as (arr' & l & r & Hrun & Hre & Hl & Hlr & Hr & _ & HL & HM & HR).
  exists arr', (record.mk l r). simpl.
  split; [done|]. split; [apply (reorders_perm _ _ _ _ Hre)|].
  split; [apply (reorders_outside _ _ _ _ Hre)|]. done.
Qed.

Lemma pivotPartition_splits_range_witness :
  ∃ arr' Pivot,
    pivotPartition [5; 8; 1; 9; 3] 0 4 = Some (arr', Pivot) ∧
    arr' ≡ₚ [5; 8; 1; 9; 3] ∧
    (∀ k, k < 0 ∨ 4 < k → sel arr' k = sel [5; 8; 1; 9; 3] k) ∧
    0 ≤ record.left Pivot ∧ record.left Pivot < record.right Pivot ∧
    record.right Pivot ≤ 4 ∧
    (∀ k, 0 ≤ k < record.left Pivot → sel arr' k < sel arr' (record.left Pivot)) ∧
    (∀ k, record.left Pivot < k < record.right Pivot →
          sel arr' (record.left Pivot) ≤ sel arr' k ≤ sel arr' (record.right Pivot)) ∧
    (∀ k, record.right Pivot < k ≤ 4 →
          sel arr' (record.right Pivot) < sel arr' k).
Proof. apply (pivotPartition_splits_range [5; 8; 1; 9; 3] 0 4); simpl; lia. Defined.

(** X18: [dualPivotQuickSort(arr, low, high)] on a range inside the buffer
    returns, leaves the cells of [low..high] in ascending order, keeps every
    cell outside the range, and keeps the buffer a permutation of what it
    was; an empty or one-cell range ([low >= high]) is accepted wherever it
    lies. *)
Theorem dualPivotQuickSort_sorts_range (arr : list Z) (low high : Z) :
  (low < high → 0 ≤ low ∧ high < Z.of_nat (length arr)) →
  ∃ arr', dualPivotQuickSort arr low high = Some arr' ∧
          arr' ≡ₚ arr ∧
          (∀ k, k < low ∨ high < k → sel arr' k = sel arr k) ∧
          sorted_range low high arr'.
Proof.
  intros Hrange.
  destruct (dualPivotQuickSort_rec_spec (Z.to_nat (high - low)) arr low high)
    as (arr' & Hrun & Hre & Hs); [done|lia|].
  exists arr'. split; [done|]. split; [apply (reorders_perm _ _ _ _ Hre)|].
  split; [apply (reorders_outside _ _ _ _ Hre)|done].
Qed.

Lemma dualPivotQuickSort_sorts_range_witness :
  ∃ arr', dualPivotQuickSort [9; 7; 5; 3; 1] 1 3 = Some arr' ∧
          arr' ≡ₚ [9; 7; 5; 3; 1] ∧
          (∀ k, k < 1 ∨ 3 < k → sel arr' k = sel [9; 7; 5; 3; 1] k) ∧
          sorted_range 1 3 arr'.
Proof. apply (dualPivotQuickSort_sorts_range [9; 7; 5; 3; 1] 1 3). simpl. lia. Defined.

(** X19: sorting the whole buffer yields a sorted list that is a
    permutation of the buffer. *)
Theorem dualPivotQuickSort_sorted_permutation (arr : list Z) :
  ∃ sorted, dualPivotQuickSort arr 0 (Z.of_nat (length arr) - 1) = Some sorted ∧
            StronglySorted Z.le sorted ∧ sorted ≡ₚ arr.
Proof.
  destruct (dualPivotQuickSort_sorts arr) as (sorted & Hrun & Hperm & Hs).
  exists sorted. split; [done|]. split; [|done].
  apply sorted_range_StronglySorted. by rewrite (Permutation_length Hperm).
Qed.

(** X20: two buffers with the same cells in any order are sorted to the
    same result. *)
Theorem dualPivotQuickSort_canonical (A B : list Z) :
  A ≡ₚ B →
  dualPivotQuickSort A 0 (Z.of_nat (length A) - 1)
  = dualPivotQuickSort B 0 (Z.of_nat (length B) - 1).
Proof.
  intros HAB.
  destruct (dualPivotQuickSort_sorts A) as (sA & -> & HpA & HsA).
  destruct (dualPivotQuickSort_sorts B) as (sB & -> & HpB & HsB).
  f_equal. apply (StronglySorted_unique Z.le).
  - apply sorted_range_StronglySorted. by rewrite (Permutation_length HpA).
  - apply sorted_range_StronglySorted. by rewrite (Permutation_length HpB).
  - by rewrite HpA, HpB.
Qed.

Lemma dualPivotQuickSort_canonical_witness :
  dualPivotQuickSort [3; 1; 2] 0 (Z.of_nat (length [3; 1; 2]) - 1)
  = dualPivotQuickSort [2; 3; 1] 0 (Z.of_nat (length [2; 3; 1]) - 1).
Proof.
  apply (dualPivotQuickSort_canonical [3; 1; 2] [2; 3; 1]).
  change ([3; 1] ++ [2] ≡ₚ [2] ++ [3; 1]). apply Permutation_app_comm.
Defined.

(** X21: [checkForSort] accepts what [dualPivotQuickSort] leaves in the
    buffer. *)
Theorem checkForSort_after_sort (arr : list Z) :
  (sorted ← dualPivotQuickSort arr 0 (Z.of_nat (length arr) - 1);
   checkForSort sorted (Z.of_nat (length arr))) = Some true.
Proof.
  destruct (dualPivotQuickSort_sorts arr) as (sorted & -> & Hperm & Hs). simpl.
  rewrite <- (Permutation_length Hperm) in *.
  destruct (checkForSort_spec sorted) as (b & -> & Hb).
  f_equal. by apply Hb.
Qed.

(** X22: called with the length of the buffer, [checkForSort] returns, and
    answers true exactly when the buffer is in ascending order. *)
Theorem checkForSort_decides_sorted (arr : list Z) :
  ∃ b, checkForSort arr (Z.of_nat (length arr)) = Some b ∧
       (b = true ↔ StronglySorted Z.le arr).
Proof.
  destruct (checkForSort_spec arr) as (b & Hrun & Hb).
  exists b. split; [done|]. rewrite Hb. split.
  - apply sorted_range_StronglySorted.
  - intros Hs. by apply no_descent_sorted_range, StronglySorted_no_descent.
Qed.

(** ** Reversing a prefix *)

Lemma load_app_l (a b : list Z) i :
  0 ≤ i < Z.of_nat (length a) → load (a ++ b) i = load a i.
Proof.
  intros Hi. unfold load. rewrite !decide_True by lia.
  by rewrite lookup_app_l by lia.
Qed.

Lemma store_app_l (a b : list Z) i v :
  0 ≤ i < Z.of_nat (length a) →
  store (a ++ b) i v = (λ a', a' ++ b) <$> store a i v.
Proof.
  intros Hi. unfold store. rewrite length_app.
  rewrite !decide_True by lia. simpl. by rewrite insert_app_l by lia.
Qed.

Lemma reverse_loop_frame (b : list Z) n : ∀ fuel a i,
  n = Z.of_nat (length a) → 0 ≤ i →
  reverse_loop fuel (a ++ b) n i = (λ a', a' ++ b) <$> reverse_loop fuel a n i.
Proof.
  pose proof (Z.div_mod n 2 ltac:(lia)) as Hdiv.
  pose proof (Z.mod_pos_bound n 2 ltac:(lia)) as Hmod.
  induction fuel as [|fuel IH]; intros a i Hn Hi; simpl;
    rewrite Z.quot_div_nonneg by lia.
  - by destruct (i <? n / 2).
  - destruct (Z.ltb_spec i (n / 2)) as [Hlt|Hge]; [|done].
    rewrite !load_app_l by lia. rewrite !load_in_range by lia. simpl.
    rewrite store_app_l by lia. rewrite store_in_range by lia. simpl.
    rewrite store_app_l by (rewrite length_insert; lia).
    rewrite store_in_range by (rewrite length_insert; lia). simpl.
    apply IH; [rewrite !length_insert; lia|lia].
Qed.

(** X23: called with a length [n] below the size of the buffer, [reverse]
    reverses the first [n] cells and leaves the cells from index [n] on
    where they are. *)
Theorem reverse_prefix (arr : list Z) (n : nat) :
  (n ≤ length arr)%nat →
  reverse arr (Z.of_nat n) = Some (rev (take n arr) ++ drop n arr).
Proof.
  intros Hn. rewrite <- (take_drop n arr) at 1. unfold reverse.
  rewrite reverse_loop_frame by (rewrite ?length_take; lia).
  pose proof (reverse_is_rev (take n arr)) as Hrev. unfold reverse in Hrev.
  rewrite length_take in Hrev. replace (n `min` length arr)%nat with n in Hrev by lia.
  by rewrite Hrev.
Qed.

Lemma reverse_prefix_witness :
  reverse [1; 2; 3; 4; 5] (Z.of_nat 3) = Some (rev (take 3 [1; 2; 3; 4; 5]) ++ drop 3 [1; 2; 3; 4; 5]).
Proof. apply (reverse_prefix [1; 2; 3; 4; 5] 3). simpl. lia. Defined.

(** ** Collisions of the hash *)

Lemma hash_step_fold_sign h v :
  is_int32 v → hash_step h v = (h * 19 + fold_sign v) mod 2 ^ 64.
Proof.
  intros Hv. unfold hash_step, fold_sign. by rewrite hash_term_sign by done.
Qed.

Lemma hash_fold_fold_sign (A : list Z) : ∀ h,
  Forall is_int32 A →
  fold_left hash_step A h
  = fold_left (λ h u, (h * 19 + u) mod 2 ^ 64) (fold_sign <$> A) h.
Proof.
  induction A as [|v A IH]; intros h HA; simpl; [done|].
  apply Forall_cons in HA as [Hv HA].
  rewrite hash_step_fold_sign by done. by apply IH.
Qed.

(** X24: the hash sees a negative cell only through its bitwise complement:
    two buffers of [int]s that agree once every negative cell [v] is
    replaced by [-v - 1] have the same hash code, so different buffers do
    collide. *)
Theorem getHashCodeOf_collides (A B : list Z) :
  Forall is_int32 A → Forall is_int32 B →
  fold_sign <$> A = fold_sign <$> B →
  getHashCodeOf (Some A) (Z.of_nat (length A))
  = getHashCodeOf (Some B) (Z.of_nat (length B)).
Proof.
  intros HA HB Hsame. unfold getHashCodeOf. rewrite !Nat2Z.id.
  pose proof (getHashCodeOf_loop_fold A (length A) 0%nat 1 ltac:(lia)) as HhA.
  pose proof (getHashCodeOf_loop_fold B (length B) 0%nat 1 ltac:(lia)) as HhB.
  change (Z.of_nat 0) with 0 in HhA, HhB.
  change (drop 0 A) with A in HhA. change (drop 0 B) with B in HhB.
  rewrite HhA, HhB. rewrite !hash_fold_fold_sign by done. by rewrite Hsame.
Qed.

Lemma getHashCodeOf_collides_witness :
  [0; 5] ≠ [-1; -6] ∧
  getHashCodeOf (Some [0; 5]) (Z.of_nat (length [0; 5]))
  = getHashCodeOf (Some [-1; -6]) (Z.of_nat (length [-1; -6])).
Proof.
  split; [discriminate|].
  apply (getHashCodeOf_collides [0; 5] [-1; -6]);
    [repeat constructor; unfold is_int32; lia..|reflexivity].
Defined.

(** ** The allocation of [copyOfRange] *)

Lemma copyOfRange_loop_overflows (arr : list Z) (start end_ : Z) : ∀ fuel ret i,
  0 ≤ start → end_ ≤ Z.of_nat (length arr) →
  0 ≤ i ≤ Z.of_nat (length ret) → Z.of_nat (length ret) < end_ - start →
  copyOfRange_loop fuel ret arr start end_ i (start + i) = None.
Proof.
  induction fuel as [|fuel IH]; intros ret i Hs He Hi Hcap; simpl;
    replace (i <? end_ - start) with true by lia; [done|].
  rewrite load_in_range by lia. simpl.
  destruct (decide (i < Z.of_nat (length ret))) as [Hin|Hout].
  - rewrite store_in_range by lia. simpl.
    replace (start + i + 1) with (start + (i + 1)) by lia.
    apply IH; rewrite ?length_insert; lia.
  - unfold store. by rewrite decide_False by lia.
Qed.

(** X25: with an [int] of two bytes or more, [copyOfRange] on a non-empty
    range inside the buffer writes past its allocation, which has room for
    [(end - start) / sizeof(int)] cells only; no number of loop iterations
    lets it return. *)
Theorem copyOfRange_overflows (sizeof_int : Z) (junk : nat → Z) (arr : list Z)
    (start end_ : Z) :
  2 ≤ sizeof_int → 0 ≤ start → start < end_ → end_ ≤ Z.of_nat (length arr) →
  copyOfRange sizeof_int junk arr start end_ = None ∧
  ∀ fuel, copyOfRange_loop fuel (malloc junk (Z.quot (end_ - start) sizeof_int))
                           arr start end_ 0 start = None.
Proof.
  intros Hsz Hs Hlt He.
  assert (0 ≤ Z.quot (end_ - start) sizeof_int < end_ - start) as Hq.
  { split; [apply Z.quot_pos; lia|apply Z.quot_lt; lia]. }
  assert (∀ fuel, copyOfRange_loop fuel (malloc junk (Z.quot (end_ - start) sizeof_int))
                                   arr start end_ 0 start = None) as Hall.
  { intros fuel.
    pose proof (copyOfRange_loop_overflows arr start end_ fuel
                  (malloc junk (Z.quot (end_ - start) sizeof_int)) 0) as Hloop.
    rewrite Z.add_0_r in Hloop. apply Hloop; rewrite ?length_malloc; lia. }
  split; [apply Hall|done].
Qed.

Lemma copyOfRange_overflows_witness :
  copyOfRange 4 (λ _, 0) [1; 2; 3; 4; 5; 6] 1 6 = None ∧
  ∀ fuel, copyOfRange_loop fuel (malloc (λ _, 0) (Z.quot (6 - 1) 4))
                           [1; 2; 3; 4; 5; 6] 1 6 0 1 = None.
Proof. apply (copyOfRange_overflows 4 (λ _, 0) [1; 2; 3; 4; 5; 6] 1 6); simpl; lia. Defined.
